(** * Streaming response segmenter of [completion_manager.py]

    A shallow embedding of [CompletionManager._stream_sentences_from_chunks]
    and of the Python primitives it relies on ([str.strip], [in],
    [str.partition], the compiled pattern [sentence_endings]), followed by
    the properties of the segmenter.

    Conventions.
    - A Python [str] is a list of code points; a code point is an [N].
    - The chunk stream is a finite list of strings, consumed from the left.
    - The generator is a value of [gen unit]: the events it yielded, in
      order, and whether its body ran to the end or raised ([ValueError] of
      [str.partition] on an empty separator is the only exception the body
      can raise). *)

From Stdlib Require Import String Ascii.
From Stdlib Require Import List NArith Bool Arith Lia.
Import ListNotations.

(* ================================================================= *)
(** ** Strings *)

Module Py.

Definition char := N.
Definition str := list char.

(** String literals of the source, as lists of code points. *)
Definition lit (s : string) : str :=
  List.map N_of_ascii (list_ascii_of_string s).

(** [str.isspace] on one code point (the table of CPython's
    [_PyUnicode_IsWhitespace]); the class [\s] of [re] on [str] patterns is
    the same set. *)
Definition is_space (c : char) : bool :=
  ((9 <=? c) && (c <=? 13) || (28 <=? c) && (c <=? 32)
   || (c =? 133) || (c =? 160) || (c =? 5760)
   || (8192 <=? c) && (c <=? 8202)
   || (c =? 8232) || (c =? 8233) || (c =? 8239) || (c =? 8287)
   || (c =? 12288))%N.

Fixpoint lstrip (s : str) : str :=
  match s with
  | c :: s' => if is_space c then lstrip s' else s
  | [] => []
  end.

Definition rstrip (s : str) : str := rev (lstrip (rev s)).

(** [s.strip()] *)
Definition strip (s : str) : str := rstrip (lstrip s).

(** Truth value of a string in a condition: non-empty. *)
Definition truthy (s : str) : bool :=
  match s with [] => false | _ :: _ => true end.

Fixpoint startswith (s prefix : str) {struct prefix} : bool :=
  match prefix, s with
  | [], _ => true
  | _ :: _, [] => false
  | a :: prefix', b :: s' => (a =? b)%N && startswith s' prefix'
  end.

(** [s.find(sub)], with [None] for -1. *)
Fixpoint find (s sub : str) : option nat :=
  if startswith s sub then Some 0
  else match s with
       | [] => None
       | _ :: s' => option_map S (find s' sub)
       end.

(** [sub in s] *)
Definition contains (sub s : str) : bool :=
  match find s sub with Some _ => true | None => false end.

(** [s.partition(sep)]: [None] stands for the [ValueError] raised on an
    empty separator. *)
Definition partition (s sep : str) : option (str * str * str) :=
  match sep with
  | [] => None
  | _ :: _ =>
      match find s sep with
      | Some i => Some (firstn i s, sep, skipn (i + length sep) s)
      | None => Some (s, [], [])
      end
  end.

End Py.

Import Py.

(* ================================================================= *)
(** ** The pattern [sentence_endings] *)

Module Re.

(** [[.!?]] *)
Definition is_terminator (c : char) : bool :=
  ((c =? 46) || (c =? 33) || (c =? 63))%N.

Definition is_newline (c : char) : bool := (c =? 10)%N.

(** Length of the longest run of whitespace at the head of [s]: what the
    greedy [\s+] consumes. *)
Fixpoint span_space (s : str) : nat :=
  match s with
  | c :: s' => if is_space c then S (span_space s') else 0
  | [] => 0
  end.

Record Match := mkMatch { m_start : nat; m_end : nat }.

(** One attempt of [(?<=[.!?])\s+|(?<=\n)] at a position: [prev] is the
    character before the position (if any), [rest] the text from the
    position on.  The alternatives are tried in order. *)
Definition match_here (prev : option char) (rest : str) (pos : nat)
  : option Match :=
  match prev with
  | None => None
  | Some p =>
      if is_terminator p && (0 <? span_space rest)
      then Some (mkMatch pos (pos + span_space rest))
      else if is_newline p then Some (mkMatch pos pos)
      else None
  end.

(** The scan of [search]: positions are tried from left to right, the end of
    the string included. *)
Fixpoint search_from (prev : option char) (rest : str) (pos : nat)
  : option Match :=
  match match_here prev rest pos with
  | Some m => Some m
  | None =>
      match rest with
      | [] => None
      | c :: rest' => search_from (Some c) rest' (S pos)
      end
  end.

(** [sentence_endings.search(buffer)] *)
Definition search (buffer : str) : option Match := search_from None buffer 0.

End Re.

(* ================================================================= *)
(** ** Events and the generator *)

Inductive kind := Sentence | ClipboardText | FullResponse.

Definition event := (kind * str)%type.

(** What running (a part of) the generator body gives: a value, or the
    exception. *)
Inductive outcome (A : Type) :=
| Returned (a : A)
| Raised.

Arguments Returned {A} a.
Arguments Raised {A}.

Definition gen (A : Type) := (list event * outcome A)%type.

Definition ret {A} (a : A) : gen A := ([], Returned a).

Definition bind {A B} (m : gen A) (f : A -> gen B) : gen B :=
  match m with
  | (evs, Returned a) => let (evs', r) := f a in (evs ++ evs', r)
  | (evs, Raised) => (evs, Raised)
  end.

Definition yield (k : kind) (payload : str) : gen unit :=
  ([(k, payload)], Returned tt).

Definition raise {A} : gen A := ([], Raised).

Definition events {A} (m : gen A) : list event := fst m.

Definition returns {A} (m : gen A) : bool :=
  match snd m with Returned _ => true | Raised => false end.

Notation "x <- m ;; f" := (bind m (fun x => f))
  (at level 61, m at next level, right associativity).
Notation "m ;;; f" := (bind m (fun _ => f))
  (at level 61, right associativity).

(** [if s: yield k, s] *)
Definition yield_if_truthy (k : kind) (s : str) : gen unit :=
  if truthy s then yield k s else ret tt.

(** Unpacking of [buffer.partition(sep)]. *)
Definition partition_gen (s sep : str) : gen (str * str * str) :=
  match partition s sep with
  | Some r => ret r
  | None => raise
  end.

(* ================================================================= *)
(** ** The segmenter *)

Record state := mkState {
  buffer : str;
  full_response : str;
  in_marker : bool;
  in_backticks : bool
}.

(** Lines 100-104. *)
Definition initial : state := mkState [] [] false false.

(** The literals of the body and the default values of the parameters. *)
Definition fence : str := lit "```".
Definition confirmation : str := lit "Code saved to the clipboard.".
Definition CLIPSTART : str := lit "-CLIPSTART-".
Definition CLIPEND : str := lit "-CLIPEND-".

(** Assignments to one variable of the state. *)
Definition set_buffer (st : state) (b : str) : state :=
  mkState b (full_response st) (in_marker st) (in_backticks st).
Definition set_in_marker (st : state) (v : bool) : state :=
  mkState (buffer st) (full_response st) v (in_backticks st).
Definition set_in_backticks (st : state) (v : bool) : state :=
  mkState (buffer st) (full_response st) (in_marker st) v.

(** Lines 107-108. *)
Definition append_chunk (st : state) (chunk : str) : state :=
  mkState (buffer st ++ chunk) (full_response st ++ chunk)
          (in_marker st) (in_backticks st).

(** The loop of lines 139-147.  Every match ends after at least one
    character of the buffer, so the length of the buffer bounds the number
    of iterations; [fuel] is that bound. *)
Fixpoint extract_loop (fuel : nat) (buffer : str) : list event * str :=
  match Re.search buffer with
  | None => ([], buffer)
  | Some m =>
      match fuel with
      | 0 => ([], buffer)
      | S fuel' =>
          let sentence := firstn (Re.m_end m) buffer in
          let buffer' := skipn (Re.m_end m) buffer in
          let (evs, rest) := extract_loop fuel' buffer' in
          (events (yield_if_truthy Sentence (strip sentence)) ++ evs, rest)
      end
  end.

(** The loop with its bound: the events it yields and the buffer it
    leaves. *)
Definition extract_sentences (buffer : str) : list event * str :=
  extract_loop (length buffer) buffer.

Section Segmenter.

Variables clip_start_marker clip_end_marker : str.

(** Lines 111-116. *)
Definition marker_start (st : state) : gen state :=
  if contains clip_start_marker (buffer st) && negb (in_marker st) then
    r <- partition_gen (buffer st) clip_start_marker ;;
    let '(pre, _, post) := r in
    yield_if_truthy Sentence (strip pre) ;;;
    ret (set_in_marker (set_buffer st post) true)
  else ret st.

(** Lines 118-122. *)
Definition marker_end (st : state) : gen state :=
  if contains clip_end_marker (buffer st) && in_marker st then
    r <- partition_gen (buffer st) clip_end_marker ;;
    let '(marked_section, _, post_end) := r in
    yield ClipboardText (strip marked_section) ;;;
    ret (set_in_marker (set_buffer st post_end) false)
  else ret st.

(** Lines 110-122. *)
Definition marker_phase (st : state) : gen state :=
  if negb (in_backticks st) then
    st1 <- marker_start st ;; marker_end st1
  else ret st.

(** Lines 124-136. *)
Definition fence_phase (st : state) : gen state :=
  if negb (in_marker st) then
    if negb (in_backticks st) && contains fence (buffer st) then
      r <- partition_gen (buffer st) fence ;;
      let '(pre, _, post) := r in
      yield_if_truthy Sentence (strip pre) ;;;
      ret (set_in_backticks (set_buffer st post) true)
    else if in_backticks st && contains fence (buffer st) then
      r <- partition_gen (buffer st) fence ;;
      let '(marked_section, _, post_end) := r in
      yield ClipboardText (fence ++ strip marked_section ++ fence) ;;;
      yield Sentence confirmation ;;;
      ret (set_in_backticks (set_buffer st post_end) false)
    else ret st
  else ret st.

(** Lines 138-147. *)
Definition sentence_phase (st : state) : gen state :=
  if negb (in_marker st) && negb (in_backticks st) then
    let (evs, rest) := extract_sentences (buffer st) in
    (evs, Returned (set_buffer st rest))
  else ret st.

(** The body of the [for] loop, lines 107-147. *)
Definition feed (st : state) (chunk : str) : gen state :=
  st1 <- marker_phase (append_chunk st chunk) ;;
  st2 <- fence_phase st1 ;;
  sentence_phase st2.

(** The [for] loop, lines 106-147. *)
Fixpoint feed_all (st : state) (chunks_stream : list str) : gen state :=
  match chunks_stream with
  | [] => ret st
  | chunk :: rest => st' <- feed st chunk ;; feed_all st' rest
  end.

(** Lines 149-155. *)
Definition flush (st : state) : gen unit :=
  if truthy (strip (buffer st)) then
    if in_backticks st then
      yield ClipboardText (fence ++ strip (buffer st))
    else if negb (in_marker st) then
      yield Sentence (strip (buffer st))
    else
      yield ClipboardText (strip (buffer st))
  else ret tt.

(** Lines 157-158. *)
Definition final (st : state) : gen unit :=
  yield_if_truthy FullResponse (strip (full_response st)).

(** Lines 100-158. *)
Definition _stream_sentences_from_chunks (chunks_stream : list str)
  : gen unit :=
  st <- feed_all initial chunks_stream ;;
  flush st ;;;
  final st.

End Segmenter.

(** The segmenter with the default values of its marker parameters. *)
Definition segment_default : list str -> gen unit :=
  _stream_sentences_from_chunks CLIPSTART CLIPEND.

(* ================================================================= *)
(** ** Program points of a run *)

(** The state a part of the body ends in, when it does not raise. *)
Definition reached {A} (m : gen A) : list A :=
  match snd m with
  | Returned a => [a]
  | Raised => []
  end.

Section Points.

Variables clip_start_marker clip_end_marker : str.

Local Abbreviation marker_start := (marker_start clip_start_marker).
Local Abbreviation marker_end := (marker_end clip_end_marker).
Local Abbreviation marker_phase :=
  (marker_phase clip_start_marker clip_end_marker).
Local Abbreviation feed := (feed clip_start_marker clip_end_marker).

(** The states at the points of one iteration of the [for] loop: after line
    108, after line 116, after line 122, after line 136 and after line 147. *)
Definition feed_points (st : state) (chunk : str) : list state :=
  let st0 := append_chunk st chunk in
  st0 ::
  (if negb (in_backticks st0) then
     reached (marker_start st0) ++
     reached (st1 <- marker_start st0 ;; marker_end st1)
   else []) ++
  reached (marker_phase st0) ++
  reached (st1 <- marker_phase st0 ;; fence_phase st1) ++
  reached (feed st chunk).

(** The states at the points of the whole loop, started in [st]. *)
Fixpoint run_points (st : state) (chunks_stream : list str) : list state :=
  st ::
  match chunks_stream with
  | [] => []
  | chunk :: rest =>
      feed_points st chunk ++
      match snd (feed st chunk) with
      | Returned st' => run_points st' rest
      | Raised => []
      end
  end.

End Points.

(* ================================================================= *)
(** ** Sentence boundaries, in the words of the specification *)

Module Boundary.

(** The character in front of position [q], and whether the character at
    position [q] is whitespace. *)
Definition char_before (b : str) (q : nat) : option char :=
  match q with
  | 0 => None
  | S i => nth_error b i
  end.

Definition space_at (b : str) (q : nat) : bool :=
  match nth_error b q with
  | Some w => is_space w
  | None => false
  end.

(** Position [q] of [b] is a sentence boundary: it is immediately after a
    ['.'], ['!'] or ['?'] that is followed by whitespace, or immediately
    after a newline. *)
Definition sentence_boundary (b : str) (q : nat) : bool :=
  match char_before b q with
  | Some p => Re.is_terminator p && space_at b q || Re.is_newline p
  | None => false
  end.

(** The earliest sentence boundary of [b]. *)
Definition earliest_boundary (b : str) : option nat :=
  List.find (sentence_boundary b) (seq 0 (S (length b))).

(** Where the buffer is cut for the boundary [q]: behind the run of
    whitespace that follows a terminator, at [q] itself behind a newline. *)
Definition cut_end (b : str) (q : nat) : nat :=
  match char_before b q with
  | Some p =>
      if Re.is_terminator p then q + Re.span_space (skipn q b) else q
  | None => q
  end.

(** The extraction in the words of the specification: the buffer is cut at
    its earliest boundary, the cut prefix is emitted, trimmed, when it is
    not blank, and the scan goes on with the remainder. *)
Fixpoint cut_at_boundaries (fuel : nat) (buffer : str) : list event * str :=
  match earliest_boundary buffer with
  | None => ([], buffer)
  | Some q =>
      match fuel with
      | 0 => ([], buffer)
      | S fuel' =>
          let (evs, rest) := cut_at_boundaries fuel' (skipn q buffer) in
          (events (yield_if_truthy Sentence (strip (firstn q buffer))) ++ evs,
           rest)
      end
  end.

(** A boundary is never at position 0, so the length of the buffer bounds
    the number of cuts. *)
Definition spec_extract_sentences (buffer : str) : list event * str :=
  cut_at_boundaries (length buffer) buffer.

End Boundary.

(* ================================================================= *)
(** ** Chunkings *)

(** The stream that delivers [s] one character at a time. *)
Definition chars (s : str) : list str := List.map (fun c => [c]) s.

(** [s[k:j]] *)
Definition slice (s : str) (k j : nat) : str := firstn (j - k) (skipn k s).

(** Equality tests on strings, events, states and runs, for the checks
    below. *)
Fixpoint str_eqb (a b : str) : bool :=
  match a, b with
  | [], [] => true
  | x :: a', y :: b' => (x =? y)%N && str_eqb a' b'
  | _, _ => false
  end.

Definition kind_eqb (a b : kind) : bool :=
  match a, b with
  | Sentence, Sentence => true
  | ClipboardText, ClipboardText => true
  | FullResponse, FullResponse => true
  | _, _ => false
  end.

Fixpoint events_eqb (a b : list event) : bool :=
  match a, b with
  | [], [] => true
  | (k, p) :: a', (k', p') :: b' =>
      kind_eqb k k' && str_eqb p p' && events_eqb a' b'
  | _, _ => false
  end.

Definition state_eqb (a b : state) : bool :=
  str_eqb (buffer a) (buffer b)
  && str_eqb (full_response a) (full_response b)
  && Bool.eqb (in_marker a) (in_marker b)
  && Bool.eqb (in_backticks a) (in_backticks b).

Definition run_eqb (a b : gen state) : bool :=
  events_eqb (fst a) (fst b) &&
  match snd a, snd b with
  | Returned x, Returned y => state_eqb x y
  | Raised, Raised => true
  | _, _ => false
  end.

Definition done_eqb (a b : gen unit) : bool :=
  events_eqb (fst a) (fst b) &&
  match snd a, snd b with
  | Returned _, Returned _ => true
  | Raised, Raised => true
  | _, _ => false
  end.

Section Exploration.

Variables clip_start_marker clip_end_marker : str.

Local Abbreviation feed := (feed clip_start_marker clip_end_marker).

(** A run of the loop in progress: the events so far and the state. *)
Definition push (run : gen state) (chunk : str) : gen state :=
  st <- run ;; feed st chunk.

(** Lines 149-158, after a run of the loop. *)
Definition finish (run : gen state) : gen unit :=
  st <- run ;; flush st ;;; final st.

Variable s : str.

(** The runs after [s[:k]], delivered as one chunk, and after one more,
    empty, chunk; at position 0 also the run that has not started. *)
Definition whole (k : nat) : gen state := push (ret initial) (firstn k s).
Definition settled (k : nat) : gen state := push (whole k) [].
Definition candidates (k : nat) : list (gen state) :=
  match k with
  | 0 => [ret initial; whole k; settled k]
  | S _ => [whole k; settled k]
  end.

(** [run] is one of [runs]. *)
Definition among (run : gen state) (runs : list (gen state)) : bool :=
  existsb (run_eqb run) runs.

(** Every chunk [s[k:j]] leads from the candidates at [k] to the candidates
    at [j]. *)
Definition closed_from (k : nat) : bool :=
  forallb (fun j =>
    forallb (fun run => among (push run (slice s k j)) (candidates j))
            (candidates k))
    (seq k (S (length s) - k)).

(** The candidates are closed under every chunk of [s]. *)
Definition closed : bool := forallb closed_from (seq 0 (S (length s))).

(** Every candidate at one of the [positions], given the rest of [s] as one
    last chunk, finishes as [expected]. *)
Definition finishes_in (positions : list nat) (expected : gen unit) : bool :=
  forallb (fun i =>
    forallb (fun run => done_eqb (finish (push run (slice s i (length s))))
                                 expected)
            (candidates i))
    positions.

(** Every candidate at the end of [s] finishes as [expected]. *)
Definition finishes (expected : gen unit) : bool :=
  forallb (fun run => done_eqb (finish run) expected)
          (candidates (length s)).

End Exploration.

(* ================================================================= *)
(** ** Text without delimiters *)

(** The events of lines 149-155 for a buffer outside every span. *)
Definition flush_sentence (buffer : str) : list event :=
  events (yield_if_truthy Sentence (strip buffer)).

(** The sentences of a text: what the extraction yields on it, then the
    flush of what the extraction leaves. *)
Definition sentences_of (text : str) : list event :=
  fst (extract_sentences text) ++ flush_sentence (snd (extract_sentences text)).

(* ================================================================= *)
(** ** Accounting for the input *)

(** The characters of a text that are not whitespace. *)
Definition visible (s : str) : str := filter (fun c => negb (is_space c)) s.

(** A piece of the input, by what the generator does with it:
    - [Spoken text]: text outside every span;
    - [Marked text]: a marker span, that is the start marker, [text] and the
      end marker;
    - [Fenced text]: a fence span, that is a fence, [text] and a fence;
    - [MarkedOpen text]: a marker span the stream ends in, that is the start
      marker and [text];
    - [FencedOpen text]: a fence span the stream ends in, that is a fence
      and [text]. *)
Inductive piece :=
| Spoken (text : str)
| Marked (text : str)
| Fenced (text : str)
| MarkedOpen (text : str)
| FencedOpen (text : str).

(** The input text of a piece, delimiters included. *)
Definition piece_text (clip_start_marker clip_end_marker : str) (p : piece)
  : str :=
  match p with
  | Spoken t => t
  | Marked t => clip_start_marker ++ t ++ clip_end_marker
  | Fenced t => fence ++ t ++ fence
  | MarkedOpen t => clip_start_marker ++ t
  | FencedOpen t => fence ++ t
  end.

(** The events of a piece: the trimmed text as a sentence unless it is
    blank; the trimmed text of a marker span as clipboard text, without the
    markers; the trimmed text of a fence span between fences as clipboard
    text, and the confirmation sentence; the trimmed text of an open marker
    span as clipboard text unless it is blank; the fence and the trimmed
    text of an open fence span as clipboard text unless the text is
    blank. *)
Definition piece_events (p : piece) : list event :=
  match p with
  | Spoken t => if truthy (strip t) then [(Sentence, strip t)] else []
  | Marked t => [(ClipboardText, strip t)]
  | Fenced t =>
      [(ClipboardText, fence ++ strip t ++ fence); (Sentence, confirmation)]
  | MarkedOpen t =>
      if truthy (strip t) then [(ClipboardText, strip t)] else []
  | FencedOpen t =>
      if truthy (strip t) then [(ClipboardText, fence ++ strip t)] else []
  end.

(** A piece that is not an open span. *)
Definition complete (p : piece) : Prop :=
  match p with
  | Spoken _ | Marked _ | Fenced _ => True
  | MarkedOpen _ | FencedOpen _ => False
  end.

(** The input text and the events of a list of pieces, in order. *)
Definition pieces_text (clip_start_marker clip_end_marker : str)
           (pieces : list piece) : str :=
  flat_map (piece_text clip_start_marker clip_end_marker) pieces.

Definition pieces_events (pieces : list piece) : list event :=
  flat_map piece_events pieces.

(** The payloads of a list of events, one after the other. *)
Definition payloads (evs : list event) : str := flat_map snd evs.

(** The sentence and clipboard events of an output. *)
Definition spoken_or_copied (evs : list event) : list event :=
  filter (fun e => negb (kind_eqb (fst e) FullResponse)) evs.

(* ================================================================= *)
(** ** The texts of the specification's examples *)

Definition marker_text : str := lit "Hello -CLIPSTART-secret-CLIPEND- world.".

Definition fence_text : str := lit "Use this: ```print(1)``` done.".

Definition unterminated_text : str := lit "abc ```def".

(* ================================================================= *)
(** ** Predicates on matches, events, states and runs *)

(** A match, seen from one position to the left. *)
Definition shift_match (m : Re.Match) : Re.Match :=
  Re.mkMatch (S (Re.m_start m)) (S (Re.m_end m)).

(** The match found in [t], seen in [t ++ r]: a run of whitespace that
    reaches the end of [t] goes on into [r]. *)
Definition extend_match (len_t : nat) (r : str) (m : Re.Match) : Re.Match :=
  if (Re.m_end m =? len_t) && (Re.m_start m <? Re.m_end m)
  then Re.mkMatch (Re.m_start m) (Re.m_end m + Re.span_space r)
  else m.

(** The two flags are not both true. *)
Definition exclusive (st : state) : Prop :=
  in_marker st && in_backticks st = false.

Definition outside_fence (st : state) : Prop := in_backticks st = false.

Definition keeps_full_response (st st' : state) : Prop :=
  full_response st' = full_response st.

(** Predicates on events: any event, an event other than [full_response],
    an event whose payload is not blank, and an event whose payload is not
    blank unless it is a clipboard text. *)
Definition any_event (e : event) : Prop := True.

Definition not_full (e : event) : Prop := fst e <> FullResponse.

Definition nonblank (e : event) : Prop := truthy (strip (snd e)) = true.

Definition nonblank_or_copied (e : event) : Prop :=
  nonblank e \/ fst e = ClipboardText.

(** Every event [m] yields satisfies [E], and [Q] holds of its value if it
    returns one. *)
Definition ok (E : event -> Prop) {A} (m : gen A) (Q : A -> Prop) : Prop :=
  Forall E (events m) /\
  match snd m with
  | Returned a => Q a
  | Raised => True
  end.

(** The same, and [m] does return. *)
Definition runs (E : event -> Prop) {A} (m : gen A) (Q : A -> Prop) : Prop :=
  Forall E (events m) /\ exists a, snd m = Returned a /\ Q a.

(** The input text a state still holds: the buffer, behind the delimiter
    that opened the span when a span is open. *)
Definition pending (clip_start_marker : str) (st : state) : str :=
  if in_backticks st then fence ++ buffer st
  else if in_marker st then clip_start_marker ++ buffer st
  else buffer st.

(** The events of [m] are those of a list of complete pieces, and [text] is
    the text of these pieces followed by the text held at the end. *)
Definition accounts (clip_start_marker clip_end_marker : str) {A}
           (text : str) (m : gen A) (rest : A -> str) (Q : A -> Prop)
  : Prop :=
  exists pieces,
    Forall complete pieces
    /\ pieces_events pieces = events m
    /\ match snd m with
       | Returned a =>
           pieces_text clip_start_marker clip_end_marker pieces ++ rest a
           = text
           /\ Q a
       | Raised => True
       end.

(** The events with all whitespace left out of their payloads. *)
Definition modulo_trim (evs : list event) : list event :=
  List.map (fun e => (fst e, visible (snd e))) evs.

(* ================================================================= *)
(** ** Further predicates on events and states *)

(** The payload of the event has no whitespace at either end. *)
Definition trimmed (e : event) : Prop := strip (snd e) = snd e.

(** A sentence event whose payload has no sentence boundary inside. *)
Definition single_sentence (e : event) : Prop :=
  fst e = Sentence /\ Boundary.earliest_boundary (snd e) = None.

(** What the loop has dealt with when a chunk is done: inside a marker
    span the buffer has no end marker, and outside every span it has no
    sentence boundary. *)
Definition drained (clip_end_marker : str) (st : state) : Prop :=
  (in_marker st = true -> contains clip_end_marker (buffer st) = false)
  /\ (in_marker st = false -> in_backticks st = false ->
      Boundary.earliest_boundary (buffer st) = None).

(** The state of an open marker span, and of an open fence span, whose
    closing delimiter has not arrived. *)
Definition in_marker_span (clip_end_marker : str) (st : state) : Prop :=
  in_marker st = true /\ in_backticks st = false
  /\ contains clip_end_marker (buffer st) = false.

Definition in_fence_span (st : state) : Prop :=
  in_marker st = false /\ in_backticks st = true
  /\ contains fence (buffer st) = false.

(** The buffer contains no delimiter that the loop looks for in the mode
    of the state: outside every span no start marker and no fence, inside a
    marker span no end marker, inside a fence span no fence. *)
Definition no_delimiter_left (clip_start_marker clip_end_marker : str)
           (st : state) : Prop :=
  (in_marker st = false -> in_backticks st = false ->
   contains clip_start_marker (buffer st) = false
   /\ contains fence (buffer st) = false)
  /\ (in_marker st = true -> contains clip_end_marker (buffer st) = false)
  /\ (in_backticks st = true -> contains fence (buffer st) = false).

(* ================================================================= *)
(** * Properties *)

(** ** The generator monad *)

Lemma bind_ret_l {A B} (a : A) (f : A -> gen B) : bind (ret a) f = f a.
Proof. unfold bind, ret. destruct (f a) as [evs r]. reflexivity. Qed.

Lemma bind_ret_r {A} (m : gen A) : bind m ret = m.
Proof.
  destruct m as [evs [a|]]; simpl; [|reflexivity].
  now rewrite app_nil_r.
Qed.

Lemma bind_assoc {A B C} (m : gen A) (f : A -> gen B) (g : B -> gen C) :
  bind (bind m f) g = bind m (fun a => bind (f a) g).
Proof.
  destruct m as [evs [a|]]; simpl; [|reflexivity].
  destruct (f a) as [evs1 [b|]]; simpl; [|reflexivity].
  destruct (g b) as [evs2 r]. now rewrite app_assoc.
Qed.

Lemma events_bind {A B} (m : gen A) (f : A -> gen B) :
  events (bind m f) =
  events m ++ match snd m with
              | Returned a => events (f a)
              | Raised => []
              end.
Proof.
  destruct m as [evs [a|]]; simpl.
  - destruct (f a); reflexivity.
  - now rewrite app_nil_r.
Qed.

(** ** Equality tests *)

Lemma str_eqb_eq (a b : str) : str_eqb a b = true -> a = b.
Proof.
  revert b; induction a as [|x a IH]; intros [|y b]; simpl; try discriminate.
  - reflexivity.
  - intros H. apply andb_true_iff in H as [Hx Hab].
    apply N.eqb_eq in Hx. f_equal; auto.
Qed.

Lemma kind_eqb_eq (a b : kind) : kind_eqb a b = true -> a = b.
Proof. destruct a, b; simpl; congruence. Qed.

Lemma events_eqb_eq (a b : list event) : events_eqb a b = true -> a = b.
Proof.
  revert b; induction a as [|[k p] a IH]; intros [|[k' p'] b]; simpl;
    try discriminate.
  - reflexivity.
  - intros H. apply andb_true_iff in H as [H Hab].
    apply andb_true_iff in H as [Hk Hp].
    apply kind_eqb_eq in Hk. apply str_eqb_eq in Hp.
    f_equal; [congruence | auto].
Qed.

Lemma state_eqb_eq (a b : state) : state_eqb a b = true -> a = b.
Proof.
  destruct a, b; unfold state_eqb; simpl. intros H.
  repeat (apply andb_true_iff in H as [H ?]).
  apply str_eqb_eq in H.
  repeat match goal with
         | E : str_eqb _ _ = true |- _ => apply str_eqb_eq in E
         | E : Bool.eqb _ _ = true |- _ => apply Bool.eqb_prop in E
         end.
  congruence.
Qed.

Lemma run_eqb_eq (a b : gen state) : run_eqb a b = true -> a = b.
Proof.
  destruct a as [ea [x|]], b as [eb [y|]]; unfold run_eqb; simpl;
    intros H; apply andb_true_iff in H as [He H]; try discriminate;
    apply events_eqb_eq in He; subst; [|reflexivity].
  apply state_eqb_eq in H. now subst.
Qed.

Lemma done_eqb_eq (a b : gen unit) : done_eqb a b = true -> a = b.
Proof.
  destruct a as [ea [[]|]], b as [eb [[]|]]; unfold done_eqb; simpl;
    intros H; apply andb_true_iff in H as [He H]; try discriminate;
    apply events_eqb_eq in He; now subst.
Qed.

(** ** Slices *)

Lemma slice_full (s : str) : slice s 0 (length s) = s.
Proof. unfold slice. simpl. rewrite Nat.sub_0_r. apply firstn_all. Qed.

Lemma slice_length (s : str) (k j : nat) :
  k <= j <= length s -> length (slice s k j) = j - k.
Proof.
  intros H. unfold slice. rewrite length_firstn, length_skipn. lia.
Qed.

Lemma slice_split (s : str) (k j : nat) (a b : str) :
  k <= j <= length s ->
  a ++ b = slice s k j ->
  k + length a <= j /\
  a = slice s k (k + length a) /\
  b = slice s (k + length a) j.
Proof.
  intros Hkj Hab.
  assert (Hlen : length a + length b = j - k).
  { rewrite <- length_app, Hab. now apply slice_length. }
  split; [lia|].
  unfold slice in *.
  replace (k + length a - k) with (length a) by lia.
  assert (Ha : a = firstn (length a) (skipn k s)).
  { transitivity (firstn (length a) (a ++ b)).
    - rewrite firstn_app, Nat.sub_diag, firstn_all. simpl.
      now rewrite app_nil_r.
    - rewrite Hab, firstn_firstn. f_equal. lia. }
  split; [exact Ha|].
  rewrite Nat.add_comm, <- skipn_skipn.
  replace (j - (length a + k)) with (j - k - length a) by lia.
  rewrite <- skipn_firstn_comm, <- Hab.
  rewrite skipn_app, Nat.sub_diag, skipn_all. reflexivity.
Qed.

(** ** Runs over every chunking of a text *)

Section Explore.

Variables clip_start_marker clip_end_marker : str.

Local Abbreviation feed_all := (feed_all clip_start_marker clip_end_marker).
Local Abbreviation push := (push clip_start_marker clip_end_marker).
Local Abbreviation segment :=
  (_stream_sentences_from_chunks clip_start_marker clip_end_marker).

Lemma feed_all_push (cs : list str) (run : gen state) :
  bind run (fun st => feed_all st cs) = fold_left push cs run.
Proof.
  revert run; induction cs as [|c cs IH]; intros run; simpl.
  - apply bind_ret_r.
  - rewrite <- IH. unfold push.
    now rewrite bind_assoc.
Qed.

Lemma segment_finish (cs : list str) :
  segment cs = finish (fold_left push cs (ret initial)).
Proof.
  unfold _stream_sentences_from_chunks, finish.
  rewrite <- feed_all_push, bind_ret_l. reflexivity.
Qed.

Lemma fold_push_app (cs : list str) (c : str) (run : gen state) :
  fold_left push (cs ++ [c]) run = push (fold_left push cs run) c.
Proof. now rewrite fold_left_app. Qed.

Variable s : str.

Local Abbreviation candidates :=
  (candidates clip_start_marker clip_end_marker s).

Lemma among_In (run : gen state) (runs : list (gen state)) :
  among run runs = true -> In run runs.
Proof.
  unfold among. intros H. apply existsb_exists in H as [r [Hr He]].
  apply run_eqb_eq in He. now subst.
Qed.

Lemma closed_step (k j : nat) (run : gen state) :
  closed clip_start_marker clip_end_marker s = true ->
  k <= j <= length s ->
  In run (candidates k) ->
  In (push run (slice s k j)) (candidates j).
Proof.
  unfold closed, closed_from. intros Hc Hkj Hin.
  rewrite forallb_forall in Hc.
  specialize (Hc k). rewrite forallb_forall in Hc.
  assert (Hk : In k (seq 0 (S (length s)))) by (apply in_seq; lia).
  specialize (Hc Hk j).
  assert (Hj : In j (seq k (S (length s) - k))) by (apply in_seq; lia).
  specialize (Hc Hj). rewrite forallb_forall in Hc.
  apply among_In. now apply Hc.
Qed.

(** Whatever way a part [s[k:j]] of the text is cut into chunks, the run
    stays among the candidates. *)
Lemma explore (cs : list str) :
  closed clip_start_marker clip_end_marker s = true ->
  forall (k j : nat) (run : gen state),
    k <= j <= length s ->
    In run (candidates k) ->
    concat cs = slice s k j ->
    In (fold_left push cs run) (candidates j).
Proof.
  intros Hc. induction cs as [|c cs IH]; intros k j run Hkj Hin Hcs;
    simpl in Hcs |- *.
  - assert (Hl : length (slice s k j) = 0) by now rewrite <- Hcs.
    rewrite slice_length in Hl by assumption.
    replace j with k by lia. exact Hin.
  - destruct (@slice_split s k j c (concat cs) Hkj Hcs) as [Hm [Hc1 Hc2]].
    apply (IH (k + length c) j); [lia | | exact Hc2].
    assert (Hp : In (push run (slice s k (k + length c)))
                    (candidates (k + length c)))
      by (apply closed_step; [exact Hc | lia | exact Hin]).
    now rewrite <- Hc1 in Hp.
Qed.

Lemma initial_candidate : In (ret initial) (candidates 0).
Proof.
  now left.
Qed.

(** Every chunking of [s] finishes as [expected], once the candidates are
    closed and all finish so. *)
Lemma every_chunking (expected : gen unit) (cs : list str) :
  closed clip_start_marker clip_end_marker s = true ->
  finishes clip_start_marker clip_end_marker s expected = true ->
  concat cs = s ->
  segment cs = expected.
Proof.
  intros Hc Hf Hcs. rewrite segment_finish.
  apply done_eqb_eq. unfold finishes in Hf. rewrite forallb_forall in Hf.
  apply Hf. apply (explore cs Hc 0 (length s)).
  - lia.
  - apply initial_candidate.
  - now rewrite slice_full.
Qed.

(** The same for the chunkings whose last chunk starts at one of the
    [positions]. *)
Lemma every_chunking_in (positions : list nat) (expected : gen unit)
      (cs : list str) (c : str) :
  closed clip_start_marker clip_end_marker s = true ->
  finishes_in clip_start_marker clip_end_marker s positions expected = true ->
  concat (cs ++ [c]) = s ->
  In (length (concat cs)) positions ->
  segment (cs ++ [c]) = expected.
Proof.
  intros Hc Hf Hcs Hk. rewrite segment_finish, fold_push_app.
  rewrite concat_app in Hcs. simpl in Hcs. rewrite app_nil_r in Hcs.
  assert (Hs : concat cs ++ c = slice s 0 (length s))
    by now rewrite slice_full.
  destruct (@slice_split s 0 (length s) (concat cs) c) as [Hm [Hc1 Hc2]];
    [lia | exact Hs |].
  simpl in Hm, Hc1, Hc2.
  apply done_eqb_eq. unfold finishes_in in Hf.
  rewrite forallb_forall in Hf.
  specialize (Hf (length (concat cs)) Hk).
  rewrite forallb_forall in Hf.
  rewrite Hc2. apply Hf.
  apply (explore cs Hc 0 (length (concat cs)));
    [lia | apply initial_candidate | exact Hc1].
Qed.

End Explore.

(** ** Whitespace and [strip] *)

Lemma visible_app (a b : str) : visible (a ++ b) = visible a ++ visible b.
Proof. apply filter_app. Qed.

Lemma visible_cons_space (c : char) (s : str) :
  is_space c = true -> visible (c :: s) = visible s.
Proof. intros H. unfold visible. simpl. now rewrite H. Qed.

Lemma visible_cons_other (c : char) (s : str) :
  is_space c = false -> visible (c :: s) = c :: visible s.
Proof. intros H. unfold visible. simpl. now rewrite H. Qed.

Lemma blank_cons (c : char) (w : str) :
  visible (c :: w) = [] -> is_space c = true /\ visible w = [].
Proof.
  destruct (is_space c) eqn:E.
  - rewrite visible_cons_space by assumption. auto.
  - rewrite visible_cons_other by assumption. discriminate.
Qed.

Lemma visible_rev (s : str) : visible (rev s) = rev (visible s).
Proof.
  induction s as [|c s IH]; [reflexivity|]. simpl rev.
  rewrite visible_app, IH.
  destruct (is_space c) eqn:E.
  - rewrite !visible_cons_space by assumption. simpl. apply app_nil_r.
  - rewrite !visible_cons_other by assumption. reflexivity.
Qed.

Lemma lstrip_blank_app (w x : str) :
  visible w = [] -> lstrip (w ++ x) = lstrip x.
Proof.
  induction w as [|c w IH]; intros H; [reflexivity|].
  apply blank_cons in H as [Hc Hw]. simpl. rewrite Hc. auto.
Qed.

Lemma lstrip_blank (w : str) : visible w = [] -> lstrip w = [].
Proof.
  intros H. rewrite <- (app_nil_r w). now rewrite lstrip_blank_app.
Qed.

Lemma visible_lstrip (s : str) : visible (lstrip s) = visible s.
Proof.
  induction s as [|c s IH]; [reflexivity|]. simpl lstrip.
  destruct (is_space c) eqn:E; [|reflexivity].
  now rewrite visible_cons_space.
Qed.

Lemma visible_rstrip (s : str) : visible (rstrip s) = visible s.
Proof.
  unfold rstrip. rewrite visible_rev, visible_lstrip, visible_rev.
  apply rev_involutive.
Qed.

(** Trimming removes whitespace only. *)
Lemma visible_strip (s : str) : visible (strip s) = visible s.
Proof. unfold strip. now rewrite visible_rstrip, visible_lstrip. Qed.

Lemma rstrip_blank_app (x w : str) :
  visible w = [] -> rstrip (x ++ w) = rstrip x.
Proof.
  intros H. unfold rstrip. rewrite rev_app_distr.
  rewrite lstrip_blank_app; [reflexivity|].
  rewrite visible_rev, H. reflexivity.
Qed.

Lemma strip_blank_app_l (w x : str) :
  visible w = [] -> strip (w ++ x) = strip x.
Proof. intros H. unfold strip. now rewrite lstrip_blank_app. Qed.

Lemma strip_blank_app_r (x w : str) :
  visible w = [] -> strip (x ++ w) = strip x.
Proof.
  intros H. induction x as [|c x IH].
  - simpl. unfold strip. rewrite (lstrip_blank w H).
    reflexivity.
  - unfold strip in *. simpl.
    destruct (is_space c); [exact IH|].
    change (c :: x ++ w) with ((c :: x) ++ w).
    now apply rstrip_blank_app.
Qed.

Lemma strip_blank (w : str) : visible w = [] -> strip w = [].
Proof.
  intros H. unfold strip. now rewrite (lstrip_blank w H).
Qed.

(** A trimmed text is empty exactly when the text is blank. *)
Lemma truthy_strip (s : str) : truthy (strip s) = truthy (visible s).
Proof.
  destruct (visible s) eqn:E.
  - now rewrite strip_blank.
  - destruct (strip s) eqn:F; [|reflexivity].
    rewrite <- visible_strip, F in E. discriminate.
Qed.

Lemma strip_idempotent_truthy (s : str) :
  truthy (strip (strip s)) = truthy (strip s).
Proof. now rewrite !truthy_strip, visible_strip. Qed.

(** ** [find], [in] and [partition] *)

Lemma startswith_split (s sub : str) :
  startswith s sub = true -> s = sub ++ skipn (length sub) s.
Proof.
  revert s; induction sub as [|a sub IH]; intros s H; [reflexivity|].
  destruct s as [|b s]; [discriminate|]. simpl in H.
  apply andb_true_iff in H as [Hab H]. apply N.eqb_eq in Hab. subst b.
  simpl. f_equal. auto.
Qed.

Lemma startswith_app (sub rest : str) : startswith (sub ++ rest) sub = true.
Proof.
  induction sub as [|a sub IH]; [reflexivity|].
  simpl. now rewrite N.eqb_refl.
Qed.

Lemma startswith_app_l (s sub rest : str) :
  startswith s sub = true -> startswith (s ++ rest) sub = true.
Proof.
  intros H. rewrite (startswith_split _ _ H), <- app_assoc.
  apply startswith_app.
Qed.

(** [find] locates an occurrence: the text splits around it. *)
Lemma find_split (s sub : str) (i : nat) :
  find s sub = Some i ->
  s = firstn i s ++ sub ++ skipn (i + length sub) s.
Proof.
  revert i; induction s as [|c s IH]; intros i; simpl.
  - destruct (startswith [] sub) eqn:E; [|discriminate].
    intros [= <-]. now apply startswith_split in E.
  - destruct (startswith (c :: s) sub) eqn:E.
    + intros [= <-]. now apply startswith_split in E.
    + destruct (find s sub) as [j|] eqn:F; [|discriminate].
      intros [= <-]. simpl. f_equal. now apply IH.
Qed.

Lemma contains_app_l (sub a b : str) :
  contains sub a = true -> contains sub (a ++ b) = true.
Proof.
  unfold contains. induction a as [|c a IH]; simpl.
  - destruct sub; [destruct b; reflexivity | discriminate].
  - destruct (startswith (c :: a) sub) eqn:E.
    + change (c :: a ++ b) with ((c :: a) ++ b).
      now rewrite (startswith_app_l _ _ b E).
    + destruct (startswith (c :: a ++ b) sub); [reflexivity|].
      destruct (find a sub); [|discriminate].
      intros _. specialize (IH eq_refl).
      destruct (find (a ++ b) sub); [reflexivity | discriminate].
Qed.

Lemma contains_app_r (sub a b : str) :
  contains sub b = true -> contains sub (a ++ b) = true.
Proof.
  unfold contains. intros H. induction a as [|c a IH]; [exact H|].
  simpl. destruct (startswith (c :: a ++ b) sub); [reflexivity|].
  destruct (find (a ++ b) sub); [reflexivity | discriminate].
Qed.

Lemma absent_app (sub a b : str) :
  contains sub (a ++ b) = false ->
  contains sub a = false /\ contains sub b = false.
Proof.
  intros H. split.
  - destruct (contains sub a) eqn:E; [|reflexivity].
    now rewrite (contains_app_l _ _ b E) in H.
  - destruct (contains sub b) eqn:E; [|reflexivity].
    now rewrite (contains_app_r _ a _ E) in H.
Qed.

(** A separator that is not empty splits the text at an occurrence found
    by [in]. *)
Lemma partition_found (s sep : str) :
  sep <> [] ->
  contains sep s = true ->
  exists pre post,
    partition s sep = Some (pre, sep, post) /\ s = pre ++ sep ++ post.
Proof.
  intros Hne Hin. unfold contains in Hin. unfold partition.
  destruct sep as [|a sep]; [contradiction|].
  destruct (find s (a :: sep)) as [i|] eqn:F; [|discriminate].
  eexists _, _. split; [reflexivity|]. now apply find_split.
Qed.

(** ** The search of [sentence_endings] *)

Lemma span_space_le (s : str) : Re.span_space s <= length s.
Proof.
  induction s as [|c s IH]; simpl; [lia|].
  destruct (is_space c); lia.
Qed.

Lemma span_space_blank (s : str) :
  visible (firstn (Re.span_space s) s) = [].
Proof.
  induction s as [|c s IH]; simpl; [reflexivity|].
  destruct (is_space c) eqn:E; [|reflexivity].
  simpl firstn. now rewrite visible_cons_space.
Qed.

Lemma span_space_app (x r : str) :
  Re.span_space (x ++ r) =
  if Re.span_space x =? length x
  then length x + Re.span_space r
  else Re.span_space x.
Proof.
  induction x as [|c x IH]; simpl; [reflexivity|].
  destruct (is_space c); [|reflexivity].
  rewrite IH. simpl.
  destruct (Re.span_space x =? length x); reflexivity.
Qed.

Lemma terminator_not_newline (p : char) :
  Re.is_terminator p = true -> Re.is_newline p = false.
Proof.
  unfold Re.is_terminator, Re.is_newline. intros H.
  destruct (N.eqb_spec p 10) as [->|]; [discriminate H | reflexivity].
Qed.

Lemma terminator_not_space (p : char) :
  Re.is_terminator p = true -> is_space p = false.
Proof.
  unfold Re.is_terminator. intros H.
  repeat (apply orb_true_iff in H as [H|H]);
    apply N.eqb_eq in H; now subst.
Qed.

Lemma match_here_bounds (prev : option char) (rest : str) (pos : nat)
      (m : Re.Match) :
  Re.match_here prev rest pos = Some m ->
  Re.m_start m = pos /\ pos <= Re.m_end m <= pos + length rest.
Proof.
  unfold Re.match_here. destruct prev as [p|]; [|discriminate].
  pose proof (span_space_le rest).
  destruct (Re.is_terminator p && (0 <? Re.span_space rest)).
  - intros [= <-]. simpl. lia.
  - destruct (Re.is_newline p); [|discriminate].
    intros [= <-]. simpl. lia.
Qed.

Lemma search_from_bounds (rest : str) (prev : option char) (pos : nat)
      (m : Re.Match) :
  Re.search_from prev rest pos = Some m ->
  pos <= Re.m_start m /\ Re.m_start m <= Re.m_end m
  /\ Re.m_end m <= pos + length rest.
Proof.
  revert prev pos; induction rest as [|c rest IH]; intros prev pos; simpl;
    destruct (Re.match_here prev _ pos) as [m0|] eqn:E;
    try discriminate.
  - intros [= <-]. apply match_here_bounds in E. simpl in E. lia.
  - intros [= <-]. apply match_here_bounds in E. simpl in E. lia.
  - intros H. apply IH in H. lia.
Qed.

(** No match starts at the beginning of the buffer: both lookbehinds need a
    character. *)
Lemma search_bounds (b : str) (m : Re.Match) :
  Re.search b = Some m ->
  1 <= Re.m_start m /\ Re.m_start m <= Re.m_end m
  /\ Re.m_end m <= length b.
Proof.
  unfold Re.search. destruct b as [|c b]; simpl; [discriminate|].
  intros H. apply search_from_bounds in H. lia.
Qed.

Lemma match_here_shift (prev : option char) (rest : str) (pos : nat) :
  Re.match_here prev rest (S pos) =
  option_map shift_match (Re.match_here prev rest pos).
Proof.
  unfold Re.match_here. destruct prev as [p|]; [|reflexivity].
  destruct (Re.is_terminator p && (0 <? Re.span_space rest));
    [reflexivity|].
  destruct (Re.is_newline p); reflexivity.
Qed.

Lemma search_from_shift (rest : str) (prev : option char) (pos : nat) :
  Re.search_from prev rest (S pos) =
  option_map shift_match (Re.search_from prev rest pos).
Proof.
  revert prev pos; induction rest as [|c rest IH]; intros prev pos; simpl;
    rewrite match_here_shift;
    destruct (Re.match_here prev _ pos); simpl; auto.
Qed.

(** A newline at the head of the buffer is cut off at once. *)
Lemma search_cons_newline (c : char) (x : str) :
  Re.is_newline c = true ->
  Re.search (c :: x) = Some (Re.mkMatch 1 1).
Proof.
  intros H. unfold Re.search. simpl.
  destruct x; simpl; unfold Re.match_here; rewrite H;
    destruct (Re.is_terminator c) eqn:E;
    try (apply terminator_not_newline in E; congruence); reflexivity.
Qed.

(** Other whitespace at the head of the buffer does not change the search. *)
Lemma search_cons_space (c : char) (x : str) :
  is_space c = true -> Re.is_newline c = false ->
  Re.search (c :: x) = option_map shift_match (Re.search x).
Proof.
  intros Hs Hn. unfold Re.search. simpl.
  assert (Ht : Re.is_terminator c = false).
  { destruct (Re.is_terminator c) eqn:E; [|reflexivity].
    apply terminator_not_space in E. congruence. }
  rewrite <- search_from_shift.
  destruct x as [|d x]; simpl; unfold Re.match_here;
    rewrite Ht, Hn; reflexivity.
Qed.

Lemma match_here_app (prev : option char) (rest r : str) (pos : nat)
      (m : Re.Match) :
  Re.match_here prev rest pos = Some m ->
  Re.match_here prev (rest ++ r) pos =
  Some (extend_match (pos + length rest) r m).
Proof.
  unfold Re.match_here. destruct prev as [p|]; [|discriminate].
  rewrite span_space_app. pose proof (span_space_le rest) as Hle.
  unfold extend_match.
  destruct (Re.is_terminator p) eqn:Ht.
  - rewrite (terminator_not_newline _ Ht). rewrite !andb_true_l.
    destruct (Nat.ltb_spec 0 (Re.span_space rest)) as [Hpos|Hpos];
      [|discriminate].
    intros [= <-]. simpl Re.m_start. simpl Re.m_end.
    destruct (Nat.eqb_spec (Re.span_space rest) (length rest)) as [Hl|Hl].
    + replace (0 <? _) with true by (symmetry; apply Nat.ltb_lt; lia).
      replace (pos + _ =? _) with true by (symmetry; apply Nat.eqb_eq; lia).
      replace (pos <? _) with true by (symmetry; apply Nat.ltb_lt; lia).
      simpl. do 2 f_equal. lia.
    + replace (0 <? _) with true by (symmetry; apply Nat.ltb_lt; lia).
      replace (pos + _ =? _) with false by (symmetry; apply Nat.eqb_neq; lia).
      reflexivity.
  - rewrite !andb_false_l.
    destruct (Re.is_newline p); [|discriminate].
    intros [= <-]. simpl Re.m_start. simpl Re.m_end.
    now rewrite Nat.ltb_irrefl, andb_false_r.
Qed.

Lemma match_here_app_none (prev : option char) (c : char) (rest r : str)
      (pos : nat) :
  Re.match_here prev (c :: rest) pos = None ->
  Re.match_here prev ((c :: rest) ++ r) pos = None.
Proof.
  unfold Re.match_here. destruct prev as [p|]; [|reflexivity].
  simpl Re.span_space. destruct (is_space c); [|trivial].
  replace (0 <? S (Re.span_space (rest ++ r))) with true by reflexivity.
  replace (0 <? S (Re.span_space rest)) with true by reflexivity.
  destruct (Re.is_terminator p); [discriminate | trivial].
Qed.

Lemma search_from_eq (prev : option char) (rest : str) (pos : nat) :
  Re.search_from prev rest pos =
  match Re.match_here prev rest pos with
  | Some m => Some m
  | None =>
      match rest with
      | [] => None
      | c :: rest' => Re.search_from (Some c) rest' (S pos)
      end
  end.
Proof. destruct rest; reflexivity. Qed.

(** A match found in [t] is found in [t ++ r] too, at the same start. *)
Lemma search_from_app (rest r : str) (prev : option char) (pos : nat)
      (m : Re.Match) :
  Re.search_from prev rest pos = Some m ->
  Re.search_from prev (rest ++ r) pos =
  Some (extend_match (pos + length rest) r m).
Proof.
  revert prev pos; induction rest as [|c rest IH]; intros prev pos;
    rewrite (search_from_eq prev (_ ++ r)), search_from_eq;
    destruct (Re.match_here prev _ pos) as [m0|] eqn:E at 1;
    try discriminate.
  - intros [= <-]. now rewrite (match_here_app _ _ r _ _ E).
  - intros [= <-]. now rewrite (match_here_app _ _ r _ _ E).
  - intros H. rewrite (match_here_app_none _ _ _ r _ E).
    change ((c :: rest) ++ r) with (c :: rest ++ r). cbv iota.
    rewrite (IH _ _ H). do 2 f_equal. simpl. lia.
Qed.

Lemma search_app (t r : str) (m : Re.Match) :
  Re.search t = Some m ->
  Re.search (t ++ r) = Some (extend_match (length t) r m).
Proof. unfold Re.search. apply search_from_app. Qed.

(** ** The extraction loop *)

Lemma extract_loop_fuel (f1 : nat) :
  forall (f2 : nat) (b : str),
    length b <= f1 -> length b <= f2 ->
    extract_loop f1 b = extract_loop f2 b.
Proof.
  induction f1 as [|f1 IH]; intros f2 b H1 H2.
  - destruct b; [|simpl in H1; lia]. destruct f2; reflexivity.
  - destruct f2 as [|f2].
    + destruct b; [|simpl in H2; lia]. reflexivity.
    + simpl. destruct (Re.search b) as [m|] eqn:E; [|reflexivity].
      apply search_bounds in E.
      rewrite (IH f2); [reflexivity | |]; rewrite length_skipn; lia.
Qed.

(** The loop as the source has it, without the bound: the bound is never
    reached. *)
Lemma extract_sentences_eq (b : str) :
  extract_sentences b =
  match Re.search b with
  | None => ([], b)
  | Some m =>
      let (evs, rest) := extract_sentences (skipn (Re.m_end m) b) in
      (events (yield_if_truthy Sentence (strip (firstn (Re.m_end m) b)))
         ++ evs, rest)
  end.
Proof.
  unfold extract_sentences.
  destruct (Re.search b) as [m|] eqn:E.
  - pose proof (search_bounds _ _ E) as Hb.
    destruct (length b) as [|n] eqn:Hl; [lia|].
    simpl. rewrite E.
    rewrite (extract_loop_fuel n (length (skipn (Re.m_end m) b)));
      [reflexivity | |]; rewrite length_skipn; lia.
  - destruct (length b); simpl; now rewrite E.
Qed.

(** Induction along the iterations of the loop. *)
Lemma extract_ind (P : str -> Prop) :
  (forall b, Re.search b = None -> P b) ->
  (forall b m, Re.search b = Some m -> P (skipn (Re.m_end m) b) -> P b) ->
  forall b, P b.
Proof.
  intros Hnone Hsome b.
  remember (length b) as n eqn:Hn. revert b Hn.
  induction n as [n IH] using (well_founded_induction lt_wf).
  intros b ->. destruct (Re.search b) as [m|] eqn:E.
  - apply (Hsome b m E). pose proof (search_bounds _ _ E).
    apply (IH (length (skipn (Re.m_end m) b))); [|reflexivity].
    rewrite length_skipn. lia.
  - now apply Hnone.
Qed.

(** What the loop leaves in the buffer has no match. *)
Lemma extract_sentences_rest (b : str) :
  Re.search (snd (extract_sentences b)) = None.
Proof.
  induction b as [b E | b m E IH] using extract_ind;
    rewrite extract_sentences_eq, E.
  - exact E.
  - destruct (extract_sentences (skipn (Re.m_end m) b)). exact IH.
Qed.

Lemma extract_sentences_none (b : str) :
  Re.search b = None -> extract_sentences b = ([], b).
Proof. intros E. now rewrite extract_sentences_eq, E. Qed.

(** The loop consumes a prefix of the buffer. *)
Lemma extract_sentences_suffix (b : str) :
  exists pre, b = pre ++ snd (extract_sentences b).
Proof.
  induction b as [b E | b m E IH] using extract_ind;
    rewrite extract_sentences_eq, E.
  - now exists [].
  - destruct (extract_sentences (skipn (Re.m_end m) b)) as [evs rest].
    destruct IH as [pre Hpre]. simpl in *.
    exists (firstn (Re.m_end m) b ++ pre).
    rewrite <- app_assoc, <- Hpre. symmetry. apply firstn_skipn.
Qed.

Lemma payloads_app (a b : list event) :
  payloads (a ++ b) = payloads a ++ payloads b.
Proof. apply flat_map_app. Qed.

Lemma yield_if_truthy_events (k : kind) (s : str) :
  events (yield_if_truthy k s) = if truthy s then [(k, s)] else [].
Proof. unfold yield_if_truthy. destruct (truthy s); reflexivity. Qed.

(** A sentence that is yielded or suppressed carries the visible
    characters of the text it was cut from. *)
Lemma visible_yield_strip (k : kind) (s : str) :
  visible (payloads (events (yield_if_truthy k (strip s)))) = visible s.
Proof.
  rewrite yield_if_truthy_events.
  destruct (truthy (strip s)) eqn:E.
  - simpl. rewrite app_nil_r. apply visible_strip.
  - rewrite truthy_strip in E.
    destruct (visible s); [reflexivity | discriminate].
Qed.

(** The sentences cut by the loop and the rest of the buffer carry the
    visible characters of the buffer, in order. *)
Lemma extract_sentences_visible (b : str) :
  visible (payloads (fst (extract_sentences b))
           ++ snd (extract_sentences b)) = visible b.
Proof.
  induction b as [b E | b m E IH] using extract_ind;
    rewrite extract_sentences_eq, E.
  - reflexivity.
  - destruct (extract_sentences (skipn (Re.m_end m) b)) as [evs rest].
    simpl in *. rewrite payloads_app, <- app_assoc, visible_app.
    rewrite visible_yield_strip, IH, <- visible_app.
    now rewrite firstn_skipn.
Qed.

(** The loop yields sentences only, none of them blank. *)
Lemma extract_sentences_events (b : str) :
  Forall (fun e => fst e = Sentence /\ truthy (strip (snd e)) = true)
         (fst (extract_sentences b)).
Proof.
  induction b as [b E | b m E IH] using extract_ind;
    rewrite extract_sentences_eq, E.
  - constructor.
  - destruct (extract_sentences (skipn (Re.m_end m) b)) as [evs rest].
    simpl in *. apply Forall_app. split; [|exact IH].
    rewrite yield_if_truthy_events.
    destruct (truthy (strip _)) eqn:T; constructor; [|constructor].
    simpl. split; [reflexivity|].
    now rewrite strip_idempotent_truthy.
Qed.

(** ** The sentences of a text *)

Lemma sentences_of_eq (b : str) :
  sentences_of b =
  match Re.search b with
  | None => flush_sentence b
  | Some m =>
      events (yield_if_truthy Sentence (strip (firstn (Re.m_end m) b)))
      ++ sentences_of (skipn (Re.m_end m) b)
  end.
Proof.
  unfold sentences_of. rewrite extract_sentences_eq.
  destruct (Re.search b) as [m|]; [|reflexivity].
  destruct (extract_sentences (skipn (Re.m_end m) b)) as [evs rest].
  simpl. now rewrite app_assoc.
Qed.

Lemma sentences_of_cons_space (c : char) (x : str) :
  is_space c = true -> sentences_of (c :: x) = sentences_of x.
Proof.
  intros Hs. rewrite (sentences_of_eq (c :: x)).
  destruct (Re.is_newline c) eqn:Hn.
  - rewrite search_cons_newline by assumption. simpl.
    assert (Hb : strip [c] = []).
    { apply strip_blank. now rewrite visible_cons_space. }
    now rewrite Hb.
  - rewrite search_cons_space by assumption.
    rewrite (sentences_of_eq x).
    destruct (Re.search x) as [m|]; simpl.
    + change (c :: firstn (Re.m_end m) x)
        with ([c] ++ firstn (Re.m_end m) x).
      rewrite strip_blank_app_l; [reflexivity|].
      now rewrite visible_cons_space.
    + unfold flush_sentence.
      change (c :: x) with ([c] ++ x).
      rewrite strip_blank_app_l; [reflexivity|].
      now rewrite visible_cons_space.
Qed.

(** Whitespace in front of a text does not change its sentences. *)
Lemma sentences_of_blank_app (w x : str) :
  visible w = [] -> sentences_of (w ++ x) = sentences_of x.
Proof.
  induction w as [|c w IH]; intros H; [reflexivity|].
  apply blank_cons in H as [Hc Hw]. simpl.
  rewrite sentences_of_cons_space by assumption. auto.
Qed.

(** The sentences of a text are those the loop cuts from a first part of
    it, followed by the sentences of what the loop left and the rest of
    the text. *)
Lemma sentences_of_app (t r : str) :
  sentences_of (t ++ r) =
  fst (extract_sentences t) ++ sentences_of (snd (extract_sentences t) ++ r).
Proof.
  induction t as [t E | t m E IH] using extract_ind.
  - now rewrite extract_sentences_none.
  - rewrite (extract_sentences_eq t), E.
    destruct (extract_sentences (skipn (Re.m_end m) t)) as [evs rest] eqn:X.
    simpl in IH |- *.
    pose proof (search_bounds _ _ E) as Hb.
    rewrite (sentences_of_eq (t ++ r)), (search_app _ r _ E).
    unfold extend_match.
    destruct ((Re.m_end m =? length t) && (Re.m_start m <? Re.m_end m))
      eqn:C.
    + apply andb_true_iff in C as [C _]. apply Nat.eqb_eq in C.
      simpl Re.m_end. rewrite C in *.
      rewrite firstn_app, skipn_app.
      replace (length t + Re.span_space r - length t)
        with (Re.span_space r) by lia.
      rewrite (firstn_all2 (n := length t + Re.span_space r)) by lia.
      rewrite (skipn_all2 (n := length t + Re.span_space r)) by lia.
      rewrite firstn_all.
      rewrite strip_blank_app_r by apply span_space_blank.
      rewrite skipn_all in X.
      rewrite extract_sentences_none in X by reflexivity.
      injection X as <- <-. simpl.
      rewrite app_nil_r. f_equal.
      rewrite <- (sentences_of_blank_app (firstn (Re.span_space r) r))
        by apply span_space_blank.
      now rewrite firstn_skipn.
    + rewrite firstn_app, skipn_app.
      replace (Re.m_end m - length t) with 0 by lia.
      simpl. rewrite app_nil_r, IH. now rewrite app_assoc.
Qed.

(** ** Reasoning about parts of the generator body *)

Section Triples.

Variable E : event -> Prop.

Local Abbreviation ok := (ok E).
Local Abbreviation runs := (runs E).

Lemma ok_ret {A} (a : A) (Q : A -> Prop) : Q a -> ok (ret a) Q.
Proof. intros H. split; [constructor | exact H]. Qed.

Lemma runs_ret {A} (a : A) (Q : A -> Prop) : Q a -> runs (ret a) Q.
Proof. intros H. split; [constructor | now exists a]. Qed.

Lemma ok_raise {A} (Q : A -> Prop) : ok raise Q.
Proof. split; [constructor | exact I]. Qed.

Lemma ok_bind {A B} (m : gen A) (f : A -> gen B)
      (Q : A -> Prop) (R : B -> Prop) :
  ok m Q -> (forall a, Q a -> ok (f a) R) -> ok (bind m f) R.
Proof.
  intros [He Hq] Hf. destruct m as [evs [a|]]; simpl in *.
  - destruct (Hf a Hq) as [He' Hr]. destruct (f a) as [evs' r].
    split; [apply Forall_app; split; assumption | exact Hr].
  - split; [exact He | exact I].
Qed.

Lemma runs_bind {A B} (m : gen A) (f : A -> gen B)
      (Q : A -> Prop) (R : B -> Prop) :
  runs m Q -> (forall a, Q a -> runs (f a) R) -> runs (bind m f) R.
Proof.
  intros [He [a [Ha Hq]]] Hf. destruct m as [evs r]. simpl in *. subst r.
  destruct (Hf a Hq) as [He' Hr]. destruct (f a) as [evs' r].
  split; [apply Forall_app; split; assumption | exact Hr].
Qed.

Lemma runs_yield (k : kind) (p : str) (Q : unit -> Prop) :
  E (k, p) -> Q tt -> runs (yield k p) Q.
Proof.
  intros He Hq. split; [repeat constructor; exact He | now exists tt].
Qed.

Lemma ok_reached {A} (m : gen A) (Q : A -> Prop) :
  ok m Q -> Forall Q (reached m).
Proof.
  intros [_ H]. unfold reached. destruct (snd m); repeat constructor.
  exact H.
Qed.

End Triples.

Lemma ok_weaken {A} (E E' : event -> Prop) (m : gen A) (Q Q' : A -> Prop) :
  (forall e, E e -> E' e) -> (forall a, Q a -> Q' a) ->
  ok E m Q -> ok E' m Q'.
Proof.
  intros HE HQ [He Hq]. split.
  - eapply Forall_impl; eauto.
  - destruct (snd m); auto.
Qed.

Lemma runs_weaken {A} (E E' : event -> Prop) (m : gen A) (Q Q' : A -> Prop) :
  (forall e, E e -> E' e) -> (forall a, Q a -> Q' a) ->
  runs E m Q -> runs E' m Q'.
Proof.
  intros HE HQ [He [a [Ha Hq]]]. split.
  - eapply Forall_impl; eauto.
  - exists a. auto.
Qed.

(** ** The parts of the loop body, case by case *)

Lemma bind_unit (m : gen unit) {B} (b : B) :
  snd m = Returned tt ->
  (m ;;; ret b) = (events m, Returned b).
Proof.
  destruct m as [evs r]. simpl. intros ->. simpl. now rewrite app_nil_r.
Qed.

Lemma yield_if_truthy_returns (k : kind) (s : str) :
  snd (yield_if_truthy k s) = Returned tt.
Proof. unfold yield_if_truthy. destruct (truthy s); reflexivity. Qed.

Lemma partition_gen_found (s sep : str) :
  contains sep s = true ->
  (sep = [] /\ partition_gen s sep = raise) \/
  (sep <> [] /\ exists pre post,
      s = pre ++ sep ++ post /\ partition_gen s sep = ret (pre, sep, post)).
Proof.
  intros H. destruct sep as [|a sep'] eqn:S.
  - left. split; reflexivity.
  - right. split; [discriminate|].
    destruct (partition_found s (a :: sep')) as [pre [post [P Hs]]];
      [discriminate | exact H |].
    exists pre, post. split; [exact Hs|].
    unfold partition_gen. now rewrite P.
Qed.

Lemma marker_start_cases (clip_start_marker : str) (st : state) :
  marker_start clip_start_marker st = ret st
  \/ (clip_start_marker = [] /\ marker_start clip_start_marker st = raise)
  \/ exists pre post,
       clip_start_marker <> [] /\ in_marker st = false
       /\ buffer st = pre ++ clip_start_marker ++ post
       /\ marker_start clip_start_marker st =
          (events (yield_if_truthy Sentence (strip pre)),
           Returned (set_in_marker (set_buffer st post) true)).
Proof.
  unfold marker_start.
  destruct (contains clip_start_marker (buffer st)) eqn:C; [|now left].
  destruct (in_marker st) eqn:M; [now left|]. simpl. right.
  destruct (partition_gen_found _ _ C) as [[-> P]|[Hne [pre [post [Hb P]]]]];
    rewrite P.
  - left. split; reflexivity.
  - right. exists pre, post. rewrite bind_ret_l.
    rewrite bind_unit by apply yield_if_truthy_returns. auto.
Qed.

Lemma marker_end_cases (clip_end_marker : str) (st : state) :
  marker_end clip_end_marker st = ret st
  \/ (clip_end_marker = [] /\ marker_end clip_end_marker st = raise)
  \/ exists marked_section post_end,
       clip_end_marker <> [] /\ in_marker st = true
       /\ buffer st = marked_section ++ clip_end_marker ++ post_end
       /\ marker_end clip_end_marker st =
          ([(ClipboardText, strip marked_section)],
           Returned (set_in_marker (set_buffer st post_end) false)).
Proof.
  unfold marker_end.
  destruct (contains clip_end_marker (buffer st)) eqn:C; [|now left].
  destruct (in_marker st) eqn:M; [|now left]. simpl. right.
  destruct (partition_gen_found _ _ C) as [[-> P]|[Hne [pre [post [Hb P]]]]];
    rewrite P.
  - left. split; reflexivity.
  - right. exists pre, post. rewrite bind_ret_l. auto.
Qed.

Lemma fence_phase_cases (st : state) :
  fence_phase st = ret st
  \/ (exists pre post,
        in_marker st = false /\ in_backticks st = false
        /\ buffer st = pre ++ fence ++ post
        /\ fence_phase st =
           (events (yield_if_truthy Sentence (strip pre)),
            Returned (set_in_backticks (set_buffer st post) true)))
  \/ (exists marked_section post_end,
        in_marker st = false /\ in_backticks st = true
        /\ buffer st = marked_section ++ fence ++ post_end
        /\ fence_phase st =
           ([(ClipboardText, fence ++ strip marked_section ++ fence);
             (Sentence, confirmation)],
            Returned (set_in_backticks (set_buffer st post_end) false))).
Proof.
  unfold fence_phase.
  destruct (in_marker st) eqn:M; [now left|]. simpl.
  destruct (contains fence (buffer st)) eqn:C;
    [|left; destruct (in_backticks st); reflexivity].
  destruct (partition_gen_found _ _ C) as [[F _]|[_ [pre [post [Hb P]]]]];
    [discriminate F|].
  right. destruct (in_backticks st) eqn:B; simpl; rewrite P, bind_ret_l.
  - right. exists pre, post. auto.
  - left. exists pre, post.
    rewrite bind_unit by apply yield_if_truthy_returns. auto.
Qed.

Lemma sentence_phase_cases (st : state) :
  sentence_phase st = ret st
  \/ (in_marker st = false /\ in_backticks st = false
      /\ sentence_phase st =
         (fst (extract_sentences (buffer st)),
          Returned (set_buffer st (snd (extract_sentences (buffer st)))))).
Proof.
  unfold sentence_phase.
  destruct (in_marker st); [now left|].
  destruct (in_backticks st); [now left|]. simpl.
  right. destruct (extract_sentences (buffer st)). auto.
Qed.

Lemma flush_cases (st : state) :
  (truthy (strip (buffer st)) = false /\ flush st = ret tt)
  \/ (truthy (strip (buffer st)) = true /\ in_backticks st = true
      /\ flush st = yield ClipboardText (fence ++ strip (buffer st)))
  \/ (truthy (strip (buffer st)) = true /\ in_backticks st = false
      /\ in_marker st = false
      /\ flush st = yield Sentence (strip (buffer st)))
  \/ (truthy (strip (buffer st)) = true /\ in_backticks st = false
      /\ in_marker st = true
      /\ flush st = yield ClipboardText (strip (buffer st))).
Proof.
  unfold flush. destruct (truthy (strip (buffer st))); [|now left].
  right. destruct (in_backticks st); [now left|].
  right. destruct (in_marker st); [now right | now left].
Qed.

(** ** The two flags *)

Lemma ok_any {A} (m : gen A) (Q : A -> Prop) :
  match snd m with Returned a => Q a | Raised => True end ->
  ok any_event m Q.
Proof.
  intros H. split; [|exact H].
  apply Forall_forall. intros; exact I.
Qed.

Lemma outside_fence_exclusive (st : state) :
  in_backticks st = false -> exclusive st.
Proof. unfold exclusive. intros ->. apply andb_false_r. Qed.

Lemma outside_marker_exclusive (st : state) :
  in_marker st = false -> exclusive st.
Proof. unfold exclusive. now intros ->. Qed.

Section Flags.

Variables clip_start_marker clip_end_marker : str.

Local Abbreviation marker_start := (marker_start clip_start_marker).
Local Abbreviation marker_end := (marker_end clip_end_marker).
Local Abbreviation marker_phase :=
  (marker_phase clip_start_marker clip_end_marker).
Local Abbreviation feed := (feed clip_start_marker clip_end_marker).

Lemma marker_start_outside_fence (st : state) :
  in_backticks st = false ->
  ok any_event (marker_start st) (fun st' => in_backticks st' = false).
Proof.
  intros B. apply ok_any.
  destruct (marker_start_cases clip_start_marker st)
    as [-> | [[_ ->] | [pre [post [_ [_ [_ ->]]]]]]]; simpl; auto.
Qed.

Lemma marker_end_outside_fence (st : state) :
  in_backticks st = false ->
  ok any_event (marker_end st) (fun st' => in_backticks st' = false).
Proof.
  intros B. apply ok_any.
  destruct (marker_end_cases clip_end_marker st)
    as [-> | [[_ ->] | [pre [post [_ [_ [_ ->]]]]]]]; simpl; auto.
Qed.

Lemma marker_phase_inside_fence (st : state) :
  in_backticks st = true -> marker_phase st = ret st.
Proof. unfold marker_phase. now intros ->. Qed.

Lemma marker_phase_exclusive (st : state) :
  exclusive st -> ok any_event (marker_phase st) exclusive.
Proof.
  intros Hx. unfold marker_phase.
  destruct (in_backticks st) eqn:B; simpl.
  - now apply ok_ret.
  - eapply ok_bind; [now apply marker_start_outside_fence|].
    intros st1 B1. eapply ok_weaken;
      [| |now apply marker_end_outside_fence]; auto.
    apply outside_fence_exclusive.
Qed.

Lemma fence_phase_inside_marker (st : state) :
  in_marker st = true -> fence_phase st = ret st.
Proof. unfold fence_phase. now intros ->. Qed.

Lemma fence_phase_exclusive (st : state) :
  exclusive st -> ok any_event (fence_phase st) exclusive.
Proof.
  intros Hx. apply ok_any.
  destruct (fence_phase_cases st)
    as [-> | [[pre [post [M [_ [_ ->]]]]] | [sec [post [_ [_ [_ ->]]]]]]];
    simpl; auto.
  - now apply outside_marker_exclusive.
  - now apply outside_fence_exclusive.
Qed.

Lemma sentence_phase_exclusive (st : state) :
  exclusive st -> ok any_event (sentence_phase st) exclusive.
Proof.
  intros Hx. apply ok_any.
  destruct (sentence_phase_cases st) as [-> | [M [_ ->]]]; simpl; auto.
Qed.

Lemma feed_exclusive (st : state) (chunk : str) :
  exclusive st -> ok any_event (feed st chunk) exclusive.
Proof.
  intros Hx. unfold feed.
  eapply ok_bind; [apply marker_phase_exclusive; exact Hx|].
  intros st1 H1. eapply ok_bind; [now apply fence_phase_exclusive|].
  intros st2 H2. now apply sentence_phase_exclusive.
Qed.

Lemma feed_points_exclusive (st : state) (chunk : str) :
  exclusive st ->
  Forall exclusive (feed_points clip_start_marker clip_end_marker st chunk).
Proof.
  intros Hx. unfold feed_points.
  assert (H0 : exclusive (append_chunk st chunk)) by exact Hx.
  constructor; [exact H0|].
  repeat (apply Forall_app; split).
  - destruct (in_backticks (append_chunk st chunk)) eqn:B; simpl;
      [constructor|].
    apply Forall_app; split.
    + eapply Forall_impl; [|eapply ok_reached;
                            now apply marker_start_outside_fence].
      apply outside_fence_exclusive.
    + eapply Forall_impl; [|eapply ok_reached].
      * apply outside_fence_exclusive.
      * eapply ok_bind; [now apply marker_start_outside_fence|].
        intros st1 B1. now apply marker_end_outside_fence.
  - eapply ok_reached. now apply marker_phase_exclusive.
  - eapply ok_reached.
    eapply ok_bind; [now apply marker_phase_exclusive|].
    intros st1 H1. now apply fence_phase_exclusive.
  - eapply ok_reached. now apply feed_exclusive.
Qed.

Lemma run_points_exclusive (chunks_stream : list str) :
  forall st,
    exclusive st ->
    Forall exclusive
           (run_points clip_start_marker clip_end_marker st chunks_stream).
Proof.
  induction chunks_stream as [|chunk rest IH]; intros st Hx;
    cbn [run_points].
  - now repeat constructor.
  - constructor; [exact Hx|]. apply Forall_app; split.
    + now apply feed_points_exclusive.
    + destruct (feed_exclusive st chunk Hx) as [_ H].
      destruct (snd (feed st chunk)); [now apply IH | constructor].
Qed.

End Flags.

(** C5.  At every point of the loop, whatever the markers and the chunks,
    [in_marker] and [in_backticks] are not both true; lines 111-122 do
    nothing while [in_backticks] is true, and lines 125-136 do nothing while
    [in_marker] is true. *)
Theorem flags_never_both_true
        (clip_start_marker clip_end_marker : str) (chunks_stream : list str) :
  Forall (fun st => in_marker st && in_backticks st = false)
         (run_points clip_start_marker clip_end_marker initial chunks_stream)
  /\ (forall st,
        marker_phase clip_start_marker clip_end_marker
                     (set_in_backticks st true)
        = ret (set_in_backticks st true))
  /\ (forall st,
        fence_phase (set_in_marker st true) = ret (set_in_marker st true)).
Proof.
  split; [|split].
  - now apply run_points_exclusive.
  - intros st. now apply marker_phase_inside_fence.
  - intros st. now apply fence_phase_inside_marker.
Qed.

(** ** The loop never yields [full_response] events *)

Lemma runs_inv {A} {E : event -> Prop} {m : gen A} {Q : A -> Prop} :
  runs E m Q ->
  exists evs a, m = (evs, Returned a) /\ Forall E evs /\ Q a.
Proof.
  intros [He [a [Ha Hq]]]. destruct m as [evs r]. simpl in *. subst r.
  now exists evs, a.
Qed.

Lemma runs_eq {A} (E : event -> Prop) (m : gen A) (Q : A -> Prop)
      (evs : list event) (a : A) :
  m = (evs, Returned a) -> Forall E evs -> Q a -> runs E m Q.
Proof. intros -> He Hq. split; [exact He | now exists a]. Qed.

Lemma not_full_yield_if_truthy (k : kind) (s : str) :
  k <> FullResponse -> Forall not_full (events (yield_if_truthy k s)).
Proof.
  intros Hk. rewrite yield_if_truthy_events.
  destruct (truthy s); repeat constructor. exact Hk.
Qed.

Section Totality.

Variables clip_start_marker clip_end_marker : str.
Hypothesis start_not_empty : clip_start_marker <> [].
Hypothesis end_not_empty : clip_end_marker <> [].

Local Abbreviation feed := (feed clip_start_marker clip_end_marker).
Local Abbreviation feed_all := (feed_all clip_start_marker clip_end_marker).

Lemma marker_start_runs (st : state) :
  runs not_full (marker_start clip_start_marker st) (keeps_full_response st).
Proof.
  destruct (marker_start_cases clip_start_marker st)
    as [E | [[E _] | [pre [post [_ [_ [_ E]]]]]]].
  - rewrite E. now apply runs_ret.
  - contradiction.
  - eapply runs_eq; [exact E | | reflexivity].
    now apply not_full_yield_if_truthy.
Qed.

Lemma marker_end_runs (st : state) :
  runs not_full (marker_end clip_end_marker st) (keeps_full_response st).
Proof.
  destruct (marker_end_cases clip_end_marker st)
    as [E | [[E _] | [pre [post [_ [_ [_ E]]]]]]].
  - rewrite E. now apply runs_ret.
  - contradiction.
  - eapply runs_eq; [exact E | | reflexivity].
    repeat constructor. discriminate.
Qed.

Lemma fence_phase_runs (st : state) :
  runs not_full (fence_phase st) (keeps_full_response st).
Proof.
  destruct (fence_phase_cases st)
    as [E | [[pre [post [_ [_ [_ E]]]]] | [sec [post [_ [_ [_ E]]]]]]].
  - rewrite E. now apply runs_ret.
  - eapply runs_eq; [exact E | | reflexivity].
    now apply not_full_yield_if_truthy.
  - eapply runs_eq; [exact E | | reflexivity].
    repeat constructor; discriminate.
Qed.

Lemma sentence_phase_runs (st : state) :
  runs not_full (sentence_phase st) (keeps_full_response st).
Proof.
  destruct (sentence_phase_cases st) as [E | [_ [_ E]]].
  - rewrite E. now apply runs_ret.
  - eapply runs_eq; [exact E | | reflexivity].
    eapply Forall_impl; [|apply extract_sentences_events].
    intros e [He _]. unfold not_full. now rewrite He.
Qed.

Lemma feed_runs (st : state) (chunk : str) :
  runs not_full (feed st chunk)
       (fun st' => full_response st' = full_response st ++ chunk).
Proof.
  unfold feed, marker_phase.
  eapply runs_bind with
    (Q := fun st' => full_response st' = full_response st ++ chunk).
  - destruct (negb (in_backticks (append_chunk st chunk)));
      [|now apply runs_ret].
    eapply runs_bind; [apply marker_start_runs|].
    intros st1 H1. eapply runs_weaken; [| |apply marker_end_runs]; auto.
    unfold keeps_full_response in *. intros st2 ->. exact H1.
  - intros st1 H1. eapply runs_bind; [apply fence_phase_runs|].
    intros st2 H2. eapply runs_weaken; [| |apply sentence_phase_runs]; auto.
    unfold keeps_full_response in *. intros st3 ->. congruence.
Qed.

Lemma feed_all_runs (chunks_stream : list str) :
  forall st,
    runs not_full (feed_all st chunks_stream)
         (fun st' =>
            full_response st' = full_response st ++ concat chunks_stream).
Proof.
  induction chunks_stream as [|chunk rest IH]; intros st; simpl.
  - apply runs_ret. now rewrite app_nil_r.
  - eapply runs_bind; [apply feed_runs|].
    intros st1 H1. eapply runs_weaken; [| |apply IH]; auto.
    simpl. intros st2 ->. rewrite H1. now rewrite app_assoc.
Qed.

Lemma flush_runs (st : state) :
  runs not_full (flush st) (fun _ => True).
Proof.
  destruct (flush_cases st)
    as [[_ E] | [[_ [_ E]] | [[_ [_ [_ E]]] | [_ [_ [_ E]]]]]];
    rewrite E; try (now apply runs_ret);
    apply runs_yield; auto; discriminate.
Qed.

End Totality.

Lemma feed_all_app (clip_start_marker clip_end_marker : str)
      (a b : list str) (st : state) :
  feed_all clip_start_marker clip_end_marker st (a ++ b) =
  (st' <- feed_all clip_start_marker clip_end_marker st a ;;
   feed_all clip_start_marker clip_end_marker st' b).
Proof.
  revert st; induction a as [|c a IH]; intros st; cbn [app feed_all].
  - now rewrite bind_ret_l.
  - rewrite bind_assoc.
    destruct (feed clip_start_marker clip_end_marker st c) as [evs [st1|]];
      [|reflexivity].
    unfold bind at 1 3. now rewrite IH.
Qed.

(** ** The [full_response] event *)

(** C4.  With markers that are not empty, the generator returns, and what
    it yields is a body without [full_response] events, followed by one
    [full_response] event carrying the trimmed concatenation of the chunks
    when that is not empty, and by nothing otherwise; the events yielded
    while any number [k] of the chunks have been consumed are a prefix of
    that body. *)
Theorem full_response_once_and_last
        (clip_start_marker clip_end_marker : str) (chunks_stream : list str) :
  clip_start_marker <> [] ->
  clip_end_marker <> [] ->
  exists body,
    _stream_sentences_from_chunks clip_start_marker clip_end_marker
                                  chunks_stream
    = (body ++ (if truthy (strip (concat chunks_stream))
                then [(FullResponse, strip (concat chunks_stream))]
                else []),
       Returned tt)
    /\ Forall (fun e => fst e <> FullResponse) body
    /\ forall k, exists later,
         body = events (feed_all clip_start_marker clip_end_marker initial
                                 (firstn k chunks_stream)) ++ later.
Proof.
  intros Hs He.
  destruct (runs_inv (feed_all_runs clip_start_marker clip_end_marker
                                    Hs He chunks_stream initial))
    as [evs [st [E [Hevs Hfull]]]].
  destruct (runs_inv (flush_runs st)) as [evf [[] [F [Hevf _]]]].
  simpl in Hfull. exists (evs ++ evf). split; [|split].
  - unfold _stream_sentences_from_chunks. rewrite E.
    unfold bind at 1. rewrite F. unfold bind, final.
    rewrite Hfull. unfold yield_if_truthy.
    destruct (truthy (strip (concat chunks_stream))); simpl.
    + now rewrite app_assoc.
    + now rewrite !app_nil_r.
  - apply Forall_app. split; assumption.
  - intros k.
    rewrite <- (firstn_skipn k chunks_stream) in E at 1.
    rewrite feed_all_app in E.
    pose proof (f_equal events E) as Hev. rewrite events_bind in Hev.
    simpl in Hev. rewrite <- Hev, <- app_assoc. eauto.
Qed.

Lemma full_response_once_and_last_witness :
  exists body,
    _stream_sentences_from_chunks CLIPSTART CLIPEND
                                  [lit "Hi. "; lit "there "]
    = (body ++ [(FullResponse, lit "Hi. there")], Returned tt)
    /\ Forall (fun e => fst e <> FullResponse) body
    /\ forall k, exists later,
         body = events (feed_all CLIPSTART CLIPEND initial
                                 (firstn k [lit "Hi. "; lit "there "]))
                ++ later.
Proof.
  apply (full_response_once_and_last CLIPSTART CLIPEND
                                     [lit "Hi. "; lit "there "]);
    discriminate.
Defined.

(** ** The empty stream *)

(** C10.  On a stream without chunks the generator yields nothing and
    returns. *)
Theorem empty_stream_yields_nothing (clip_start_marker clip_end_marker : str) :
  _stream_sentences_from_chunks clip_start_marker clip_end_marker []
  = ([], Returned tt).
Proof. reflexivity. Qed.

(** ** The round trips of the specification *)

(** C3.  However the marker text is cut into chunks (empty chunks
    included), the default segmenter yields "Hello", the clipboard text
    "secret", "world." and the full text, and returns. *)
Theorem marker_round_trip (chunks_stream : list str) :
  concat chunks_stream = marker_text ->
  segment_default chunks_stream
  = ([(Sentence, lit "Hello");
      (ClipboardText, lit "secret");
      (Sentence, lit "world.");
      (FullResponse, lit "Hello -CLIPSTART-secret-CLIPEND- world.")],
     Returned tt).
Proof.
  apply every_chunking; vm_compute; reflexivity.
Qed.

Lemma marker_round_trip_witness :
  segment_default [lit "Hello -CLIPST"; lit "ART-secret-CLIPEND"; lit "- world."]
  = ([(Sentence, lit "Hello");
      (ClipboardText, lit "secret");
      (Sentence, lit "world.");
      (FullResponse, lit "Hello -CLIPSTART-secret-CLIPEND- world.")],
     Returned tt).
Proof.
  apply (marker_round_trip
           [lit "Hello -CLIPST"; lit "ART-secret-CLIPEND"; lit "- world."]).
  reflexivity.
Defined.

(** C2.  Given the fence text as one chunk, the default segmenter opens the
    fence and does not close it: the rest of the text leaves at the flush,
    as one clipboard text with the re-opened fence; no confirmation and no
    sentence "done." are yielded. *)
Theorem fence_round_trip_single_chunk :
  segment_default [lit "Use this: ```print(1)``` done."]
  = ([(Sentence, lit "Use this:");
      (ClipboardText, lit "```print(1)``` done.");
      (FullResponse, lit "Use this: ```print(1)``` done.")],
     Returned tt).
Proof. vm_compute. reflexivity. Qed.

(** The events of the specification are yielded as soon as the opening
    fence (the first 13 characters) is complete before the last chunk. *)
Lemma fence_round_trip_split (chunks_stream : list str) (chunk : str) :
  concat (chunks_stream ++ [chunk]) = fence_text ->
  13 <= length (concat chunks_stream) ->
  segment_default (chunks_stream ++ [chunk])
  = ([(Sentence, lit "Use this:");
      (ClipboardText, lit "```print(1)```");
      (Sentence, lit "Code saved to the clipboard.");
      (Sentence, lit "done.");
      (FullResponse, lit "Use this: ```print(1)``` done.")],
     Returned tt).
Proof.
  intros Hcs Hk.
  apply (every_chunking_in CLIPSTART CLIPEND fence_text (seq 13 18));
    [vm_compute; reflexivity | vm_compute; reflexivity | exact Hcs |].
  apply in_seq. split; [exact Hk|].
  apply (f_equal (@length char)) in Hcs.
  rewrite concat_app, length_app in Hcs.
  change (length fence_text) with 30 in Hcs. lia.
Qed.

(** They are not when the opening fence is completed by the last chunk. *)
Lemma fence_round_trip_late (chunks_stream : list str) (chunk : str) :
  concat (chunks_stream ++ [chunk]) = fence_text ->
  length (concat chunks_stream) < 13 ->
  segment_default (chunks_stream ++ [chunk])
  = ([(Sentence, lit "Use this:");
      (ClipboardText, lit "```print(1)``` done.");
      (FullResponse, lit "Use this: ```print(1)``` done.")],
     Returned tt).
Proof.
  intros Hcs Hk.
  apply (every_chunking_in CLIPSTART CLIPEND fence_text (seq 0 13));
    [vm_compute; reflexivity | vm_compute; reflexivity | exact Hcs |].
  apply in_seq. lia.
Qed.

(** ** The flush *)

Lemma feed_all_exclusive (clip_start_marker clip_end_marker : str)
      (chunks_stream : list str) :
  forall st,
    exclusive st ->
    ok any_event (feed_all clip_start_marker clip_end_marker st chunks_stream)
       exclusive.
Proof.
  induction chunks_stream as [|chunk rest IH]; intros st Hx; simpl.
  - now apply ok_ret.
  - eapply ok_bind; [now apply feed_exclusive|]. exact IH.
Qed.

(** C7.  When the loop ends in a state whose buffer is not blank, the
    generator yields one event between those of the loop and the
    [full_response] event: the clipboard text "```" + trimmed buffer if
    [in_backticks] is true, the sentence of the trimmed buffer if neither
    flag is true, the clipboard text of the trimmed buffer if [in_marker] is
    true.  However the text "abc ```def" is cut into chunks, the default
    segmenter yields the sentence "abc", the clipboard text "```def" and
    the full text. *)
Theorem flush_policy :
  (forall clip_start_marker clip_end_marker chunks_stream evs st,
      feed_all clip_start_marker clip_end_marker initial chunks_stream
      = (evs, Returned st) ->
      truthy (strip (buffer st)) = true ->
      exists e,
        _stream_sentences_from_chunks clip_start_marker clip_end_marker
                                      chunks_stream
        = (evs ++ [e] ++ events (final st), Returned tt)
        /\ (in_backticks st = true ->
            e = (ClipboardText, fence ++ strip (buffer st)))
        /\ (in_backticks st = false -> in_marker st = false ->
            e = (Sentence, strip (buffer st)))
        /\ (in_marker st = true ->
            e = (ClipboardText, strip (buffer st))))
  /\ (forall chunks_stream,
         concat chunks_stream = unterminated_text ->
         segment_default chunks_stream
         = ([(Sentence, lit "abc");
             (ClipboardText, lit "```def");
             (FullResponse, lit "abc ```def")],
            Returned tt)).
Proof.
  split.
  - intros cs ce chunks evs st E T.
    assert (Hx : exclusive st).
    { pose proof (feed_all_exclusive cs ce chunks initial eq_refl) as [_ H].
      now rewrite E in H. }
    assert (Hfinal : snd (final st) = Returned tt)
      by apply yield_if_truthy_returns.
    unfold _stream_sentences_from_chunks. rewrite E.
    destruct (final st) as [evl r] eqn:F. simpl in Hfinal. subst r.
    destruct (flush_cases st)
      as [[T' _] | [[_ [B Fl]] | [[_ [B [M Fl]]] | [_ [B [M Fl]]]]]];
      [congruence | | |];
      eexists; (split; [unfold bind at 1; rewrite Fl; simpl; rewrite F;
                        reflexivity|]);
      repeat split; intros; try reflexivity; try congruence.
    unfold exclusive in Hx. rewrite B in Hx.
    destruct (in_marker st); discriminate.
  - intros chunks. apply every_chunking; vm_compute; reflexivity.
Qed.

Lemma flush_policy_witness :
  (exists e,
      _stream_sentences_from_chunks CLIPSTART CLIPEND [lit "-CLIPSTART- abc "]
      = ([] ++ [e] ++ [(FullResponse, lit "-CLIPSTART- abc")], Returned tt)
      /\ (false = true -> e = (ClipboardText, fence ++ lit "abc"))
      /\ (false = false -> true = false -> e = (Sentence, lit "abc"))
      /\ (true = true -> e = (ClipboardText, lit "abc")))
  /\ segment_default [lit "abc `"; lit "``def"]
     = ([(Sentence, lit "abc");
         (ClipboardText, lit "```def");
         (FullResponse, lit "abc ```def")],
        Returned tt).
Proof.
  split.
  - apply (proj1 flush_policy CLIPSTART CLIPEND [lit "-CLIPSTART- abc "] []
                 (mkState (lit " abc ") (lit "-CLIPSTART- abc ") true false));
      reflexivity.
  - apply (proj2 flush_policy [lit "abc `"; lit "``def"]). reflexivity.
Defined.

(** ** Blank payloads *)

Lemma nonblank_yield_if_truthy (k : kind) (s : str) :
  Forall nonblank (events (yield_if_truthy k (strip s))).
Proof.
  rewrite yield_if_truthy_events.
  destruct (truthy (strip s)) eqn:T; repeat constructor.
  unfold nonblank. simpl. now rewrite strip_idempotent_truthy.
Qed.

Lemma nonblank_fenced (s : str) : truthy (strip (fence ++ s)) = true.
Proof. rewrite truthy_strip, visible_app. reflexivity. Qed.

Lemma marker_start_nonblank (clip_start_marker : str) (st : state) :
  Forall nonblank (events (marker_start clip_start_marker st)).
Proof.
  destruct (marker_start_cases clip_start_marker st)
    as [-> | [[_ ->] | [pre [post [_ [_ [_ ->]]]]]]];
    try constructor.
  apply nonblank_yield_if_truthy.
Qed.

Lemma fence_phase_nonblank (st : state) :
  Forall nonblank (events (fence_phase st)).
Proof.
  destruct (fence_phase_cases st)
    as [-> | [[pre [post [_ [_ [_ ->]]]]] | [sec [post [_ [_ [_ ->]]]]]]].
  - constructor.
  - apply nonblank_yield_if_truthy.
  - repeat constructor. apply nonblank_fenced.
Qed.

Lemma sentence_phase_nonblank (st : state) :
  Forall nonblank (events (sentence_phase st)).
Proof.
  destruct (sentence_phase_cases st) as [-> | [_ [_ ->]]]; [constructor|].
  eapply Forall_impl; [|apply extract_sentences_events].
  intros e [_ H]. exact H.
Qed.

Lemma flush_nonblank (st : state) : Forall nonblank (events (flush st)).
Proof.
  destruct (flush_cases st)
    as [[_ ->] | [[T [_ ->]] | [[T [_ [_ ->]]] | [T [_ [_ ->]]]]]];
    repeat constructor; unfold nonblank; simpl.
  - apply nonblank_fenced.
  - now rewrite strip_idempotent_truthy.
  - now rewrite strip_idempotent_truthy.
Qed.

Lemma final_nonblank (st : state) : Forall nonblank (events (final st)).
Proof. apply nonblank_yield_if_truthy. Qed.

Lemma marker_end_copied (clip_end_marker : str) (st : state) :
  Forall nonblank_or_copied (events (marker_end clip_end_marker st)).
Proof.
  destruct (marker_end_cases clip_end_marker st)
    as [-> | [[_ ->] | [pre [post [_ [_ [_ ->]]]]]]];
    try (now constructor).
  constructor; [now right | constructor].
Qed.

Lemma ok_events {A} (E : event -> Prop) (m : gen A) :
  Forall E (events m) -> ok E m (fun _ => True).
Proof. intros H. split; [exact H|]. destruct (snd m); exact I. Qed.

Lemma nonblank_weaken (evs : list event) :
  Forall nonblank evs -> Forall nonblank_or_copied evs.
Proof. apply Forall_impl. intros e H. now left. Qed.

Lemma feed_nonblank_or_copied (clip_start_marker clip_end_marker : str)
      (st : state) (chunk : str) :
  ok nonblank_or_copied (feed clip_start_marker clip_end_marker st chunk)
     (fun _ => True).
Proof.
  unfold feed, marker_phase.
  eapply ok_bind with (Q := fun _ => True).
  - destruct (negb (in_backticks (append_chunk st chunk)));
      [|now apply ok_ret].
    eapply ok_bind with (Q := fun _ => True).
    + apply ok_events, nonblank_weaken, marker_start_nonblank.
    + intros st1 _. apply ok_events, marker_end_copied.
  - intros st1 _. eapply ok_bind with (Q := fun _ => True).
    + apply ok_events, nonblank_weaken, fence_phase_nonblank.
    + intros st2 _. apply ok_events, nonblank_weaken, sentence_phase_nonblank.
Qed.

Lemma feed_all_nonblank_or_copied (clip_start_marker clip_end_marker : str)
      (chunks_stream : list str) :
  forall st,
    ok nonblank_or_copied
       (feed_all clip_start_marker clip_end_marker st chunks_stream)
       (fun _ => True).
Proof.
  induction chunks_stream as [|chunk rest IH]; intros st; simpl.
  - now apply ok_ret.
  - eapply ok_bind; [apply feed_nonblank_or_copied|]. intros st1 _. apply IH.
Qed.

(** C8.  The sentence before a marker start, the events of the fence
    detection, the sentences of the extraction, the flush and the
    [full_response] event never carry a blank payload; the closing of a
    marker span always yields its clipboard text, blank or not; so a blank
    payload in the output of the generator is that of a clipboard text, as
    for the text "-CLIPSTART-  -CLIPEND-". *)
Theorem blank_payloads_suppressed :
  (forall clip_start_marker st,
      Forall nonblank (events (marker_start clip_start_marker st)))
  /\ (forall st, Forall nonblank (events (fence_phase st)))
  /\ (forall st, Forall nonblank (events (sentence_phase st)))
  /\ (forall st, Forall nonblank (events (flush st) ++ events (final st)))
  /\ (forall clip_end_marker st,
         clip_end_marker <> [] ->
         in_marker st = true ->
         contains clip_end_marker (buffer st) = true ->
         exists marked_section post_end,
           buffer st = marked_section ++ clip_end_marker ++ post_end
           /\ events (marker_end clip_end_marker st)
              = [(ClipboardText, strip marked_section)])
  /\ (forall clip_start_marker clip_end_marker chunks_stream e,
         In e (events (_stream_sentences_from_chunks
                         clip_start_marker clip_end_marker chunks_stream)) ->
         truthy (strip (snd e)) = false ->
         fst e = ClipboardText)
  /\ events (segment_default [lit "-CLIPSTART-  -CLIPEND-"])
     = [(ClipboardText, []);
        (FullResponse, lit "-CLIPSTART-  -CLIPEND-")].
Proof.
  repeat split.
  - intros. apply marker_start_nonblank.
  - apply fence_phase_nonblank.
  - apply sentence_phase_nonblank.
  - intros st. apply Forall_app. split;
      [apply flush_nonblank | apply final_nonblank].
  - intros ce st Hne M C.
    destruct (marker_end_cases ce st)
      as [E | [[E _] | [sec [post [_ [_ [Hb E]]]]]]].
    + unfold marker_end in E. rewrite C, M in E. simpl in E.
      destruct (partition_gen_found _ _ C) as [[F _]|[_ [a [b [_ P]]]]];
        [contradiction|].
      rewrite P, bind_ret_l in E. discriminate E.
    + contradiction.
    + exists sec, post. now rewrite E.
  - intros cs ce chunks e Hin Hblank.
    assert (H : ok nonblank_or_copied
                   (_stream_sentences_from_chunks cs ce chunks)
                   (fun _ => True)).
    { unfold _stream_sentences_from_chunks.
      eapply ok_bind; [apply feed_all_nonblank_or_copied|].
      intros st _. eapply ok_bind with (Q := fun _ => True).
      - apply ok_events, nonblank_weaken, flush_nonblank.
      - intros _ _. apply ok_events, nonblank_weaken, final_nonblank. }
    destruct H as [H _]. rewrite Forall_forall in H.
    destruct (H e Hin) as [Hn | Hc]; [|exact Hc].
    unfold nonblank in Hn. congruence.
Qed.

Lemma blank_payloads_suppressed_witness :
  (exists marked_section post_end,
      lit "  -CLIPEND- x" = marked_section ++ CLIPEND ++ post_end
      /\ events (marker_end CLIPEND (mkState (lit "  -CLIPEND- x") [] true false))
         = [(ClipboardText, strip marked_section)])
  /\ fst (ClipboardText, @nil char) = ClipboardText.
Proof.
  pose proof blank_payloads_suppressed as [_ [_ [_ [_ [Hend [Hrun _]]]]]].
  split.
  - apply (Hend CLIPEND (mkState (lit "  -CLIPEND- x") [] true false));
      [discriminate | reflexivity | reflexivity].
  - apply (Hrun CLIPSTART CLIPEND [lit "-CLIPSTART-  -CLIPEND-"]
                (ClipboardText, [])); [left|]; reflexivity.
Defined.

(** ** Text without delimiters: every chunking gives the same events *)

Section Plain.

Variables clip_start_marker clip_end_marker : str.

Local Abbreviation feed := (feed clip_start_marker clip_end_marker).
Local Abbreviation feed_all := (feed_all clip_start_marker clip_end_marker).
Local Abbreviation segment :=
  (_stream_sentences_from_chunks clip_start_marker clip_end_marker).

Lemma marker_start_skip (st : state) :
  contains clip_start_marker (buffer st) = false ->
  marker_start clip_start_marker st = ret st.
Proof. unfold marker_start. now intros ->. Qed.

Lemma marker_end_skip (st : state) :
  in_marker st = false -> marker_end clip_end_marker st = ret st.
Proof. unfold marker_end. intros ->. now rewrite andb_false_r. Qed.

Lemma fence_phase_skip (st : state) :
  contains fence (buffer st) = false -> fence_phase st = ret st.
Proof.
  unfold fence_phase. intros ->. rewrite !andb_false_r.
  now destruct (negb (in_marker st)).
Qed.

Lemma sentence_phase_outside (st : state) :
  in_marker st = false -> in_backticks st = false ->
  sentence_phase st =
  (fst (extract_sentences (buffer st)),
   Returned (set_buffer st (snd (extract_sentences (buffer st))))).
Proof.
  unfold sentence_phase. intros -> ->. simpl.
  now destruct (extract_sentences (buffer st)).
Qed.

(** Outside every span, on a buffer without start marker and without fence,
    the loop body only extracts sentences. *)
Lemma feed_plain (st : state) (chunk : str) :
  in_marker st = false ->
  in_backticks st = false ->
  contains clip_start_marker (buffer st ++ chunk) = false ->
  contains fence (buffer st ++ chunk) = false ->
  feed st chunk =
  (fst (extract_sentences (buffer st ++ chunk)),
   Returned (mkState (snd (extract_sentences (buffer st ++ chunk)))
                     (full_response st ++ chunk) false false)).
Proof.
  intros M B Cs Cf.
  unfold feed, marker_phase.
  set (st0 := append_chunk st chunk).
  assert (M0 : in_marker st0 = false) by exact M.
  assert (B0 : in_backticks st0 = false) by exact B.
  change (buffer st ++ chunk) with (buffer st0) in *.
  rewrite B0. cbn [negb].
  rewrite (marker_start_skip st0 Cs), bind_ret_l.
  rewrite (marker_end_skip st0 M0), bind_ret_l.
  rewrite (fence_phase_skip st0 Cf), bind_ret_l.
  rewrite (sentence_phase_outside st0 M0 B0).
  unfold set_buffer. rewrite M0, B0. reflexivity.
Qed.

Lemma feed_all_plain (chunks_stream : list str) :
  forall st,
    in_marker st = false ->
    in_backticks st = false ->
    Re.search (buffer st) = None ->
    contains clip_start_marker (buffer st ++ concat chunks_stream) = false ->
    contains fence (buffer st ++ concat chunks_stream) = false ->
    exists evs st',
      feed_all st chunks_stream = (evs, Returned st')
      /\ in_marker st' = false /\ in_backticks st' = false
      /\ full_response st' = full_response st ++ concat chunks_stream
      /\ evs ++ flush_sentence (buffer st')
         = sentences_of (buffer st ++ concat chunks_stream).
Proof.
  induction chunks_stream as [|chunk rest IH]; intros st M B S Cs Cf;
    cbn [feed_all concat].
  - exists [], st. rewrite !app_nil_r. repeat split; try assumption.
    unfold sentences_of. now rewrite extract_sentences_none.
  - cbn [concat] in Cs, Cf. rewrite app_assoc in Cs, Cf.
    destruct (absent_app _ _ _ Cs) as [Cs1 _].
    destruct (absent_app _ _ _ Cf) as [Cf1 _].
    rewrite (feed_plain st chunk M B Cs1 Cf1). unfold bind.
    destruct (extract_sentences_suffix (buffer st ++ chunk)) as [pre Hpre].
    set (rest_buffer := snd (extract_sentences (buffer st ++ chunk))) in *.
    rewrite Hpre, <- app_assoc in Cs, Cf.
    destruct (absent_app _ _ _ Cs) as [_ Cs2].
    destruct (absent_app _ _ _ Cf) as [_ Cf2].
    destruct (IH (mkState rest_buffer (full_response st ++ chunk) false false)
                 eq_refl eq_refl (extract_sentences_rest _) Cs2 Cf2)
      as [evs [st' [E [M' [B' [F' H']]]]]].
    simpl in E, F', H'. rewrite E.
    exists (fst (extract_sentences (buffer st ++ chunk)) ++ evs), st'.
    repeat split; try assumption.
    + rewrite F'. now rewrite <- app_assoc.
    + rewrite <- app_assoc, H', app_assoc.
      symmetry. apply sentences_of_app.
Qed.

Lemma flush_plain (st : state) :
  in_marker st = false -> in_backticks st = false ->
  flush st = yield_if_truthy Sentence (strip (buffer st)).
Proof.
  intros M B. unfold flush, yield_if_truthy. rewrite M, B.
  destruct (truthy (strip (buffer st))); reflexivity.
Qed.

(** The events for a text without start marker and without fence depend on
    the text only, not on the chunks. *)
Lemma segment_plain (chunks_stream : list str) :
  contains clip_start_marker (concat chunks_stream) = false ->
  contains fence (concat chunks_stream) = false ->
  segment chunks_stream =
  (sentences_of (concat chunks_stream)
     ++ events (yield_if_truthy FullResponse (strip (concat chunks_stream))),
   Returned tt).
Proof.
  intros Cs Cf.
  destruct (feed_all_plain chunks_stream initial eq_refl eq_refl eq_refl Cs Cf)
    as [evs [st [E [M [B [F H]]]]]].
  simpl in F, H. unfold _stream_sentences_from_chunks. rewrite E.
  unfold bind at 1.
  rewrite (flush_plain st M B). unfold final. rewrite F.
  rewrite <- H. unfold flush_sentence.
  pose proof (yield_if_truthy_returns Sentence (strip (buffer st))) as R1.
  pose proof (yield_if_truthy_returns FullResponse
                (strip (concat chunks_stream))) as R2.
  destruct (yield_if_truthy Sentence (strip (buffer st))) as [e1 r1].
  destruct (yield_if_truthy FullResponse (strip (concat chunks_stream)))
    as [e2 r2].
  simpl in *. subst. now rewrite <- app_assoc.
Qed.

End Plain.

Lemma concat_chars (s : str) : concat (chars s) = s.
Proof.
  induction s as [|c s IH]; [reflexivity|].
  simpl. now rewrite IH.
Qed.

(** C1, as amended.  For a text that contains neither the start marker nor
    a fence, delivering it one character at a time gives the events (and
    the outcome) of delivering it as one chunk. *)
Theorem per_character_plain_text
        (clip_start_marker clip_end_marker : str) (s : str) :
  contains clip_start_marker s = false ->
  contains fence s = false ->
  _stream_sentences_from_chunks clip_start_marker clip_end_marker (chars s)
  = _stream_sentences_from_chunks clip_start_marker clip_end_marker [s].
Proof.
  intros Cs Cf.
  rewrite !segment_plain; rewrite ?concat_chars; simpl concat;
    rewrite ?app_nil_r; auto.
Qed.

Lemma per_character_plain_text_witness :
  _stream_sentences_from_chunks CLIPSTART CLIPEND
                                (chars (lit "One.  Two! Three"))
  = _stream_sentences_from_chunks CLIPSTART CLIPEND [lit "One.  Two! Three"].
Proof.
  apply (per_character_plain_text CLIPSTART CLIPEND (lit "One.  Two! Three"));
    reflexivity.
Defined.

(** C1, as stated, fails: the text before a start marker is yielded as one
    sentence when it arrives in the chunk of the marker, and sentence by
    sentence when it arrives character by character; the two outputs differ
    even with all whitespace left out of the payloads. *)
Lemma per_character_differs_from_single_chunk :
  events (segment_default (chars (lit "a. b-CLIPSTART-c-CLIPEND-")))
  = [(Sentence, lit "a."); (Sentence, lit "b"); (ClipboardText, lit "c");
     (FullResponse, lit "a. b-CLIPSTART-c-CLIPEND-")]
  /\ events (segment_default [lit "a. b-CLIPSTART-c-CLIPEND-"])
     = [(Sentence, lit "a. b"); (ClipboardText, lit "c");
        (FullResponse, lit "a. b-CLIPSTART-c-CLIPEND-")]
  /\ modulo_trim
       (events (segment_default (chars (lit "a. b-CLIPSTART-c-CLIPEND-"))))
     <> modulo_trim
          (events (segment_default [lit "a. b-CLIPSTART-c-CLIPEND-"])).
Proof.
  split; [|split]; [vm_compute; reflexivity | vm_compute; reflexivity |].
  vm_compute. discriminate.
Qed.

(** ** The search finds the earliest sentence boundary *)

Import Boundary.

Lemma skipn_cons_inv (b : str) (pos : nat) (c : char) (rest : str) :
  skipn pos b = c :: rest ->
  nth_error b pos = Some c /\ skipn (S pos) b = rest.
Proof.
  intros H. split.
  - rewrite <- hd_error_skipn, H. reflexivity.
  - replace (S pos) with (1 + pos) by lia.
    rewrite <- skipn_skipn, H. reflexivity.
Qed.

Lemma space_at_skipn (b : str) (pos : nat) :
  space_at b pos = (0 <? Re.span_space (skipn pos b)).
Proof.
  unfold space_at. rewrite <- hd_error_skipn.
  destruct (skipn pos b) as [|w rest]; simpl; [reflexivity|].
  now destruct (is_space w).
Qed.

(** An attempt of the pattern at a position succeeds exactly at a sentence
    boundary, and ends where [cut_end] says. *)
Lemma match_here_boundary (b : str) (pos : nat) :
  Re.match_here (char_before b pos) (skipn pos b) pos =
  if sentence_boundary b pos
  then Some (Re.mkMatch pos (cut_end b pos))
  else None.
Proof.
  unfold Re.match_here, sentence_boundary, cut_end.
  destruct (char_before b pos) as [p|]; [|reflexivity].
  rewrite space_at_skipn.
  destruct (Re.is_terminator p) eqn:T; simpl.
  - rewrite (terminator_not_newline _ T), orb_false_r.
    destruct (0 <? Re.span_space (skipn pos b)); reflexivity.
  - destruct (Re.is_newline p); reflexivity.
Qed.

Lemma search_from_boundary (b rest : str) :
  forall pos,
    skipn pos b = rest ->
    Re.search_from (char_before b pos) rest pos =
    option_map (fun q => Re.mkMatch q (cut_end b q))
               (List.find (sentence_boundary b) (seq pos (S (length rest)))).
Proof.
  induction rest as [|c rest IH]; intros pos H;
    rewrite search_from_eq; rewrite <- H at 1;
    rewrite match_here_boundary; cbn [seq List.find length];
    destruct (sentence_boundary b pos); try reflexivity.
  destruct (skipn_cons_inv b pos c rest H) as [Hc Hrest].
  rewrite <- Hc.
  apply (IH (S pos) Hrest).
Qed.

Lemma search_boundary (b : str) :
  Re.search b =
  option_map (fun q => Re.mkMatch q (cut_end b q)) (earliest_boundary b).
Proof. apply (search_from_boundary b b 0 eq_refl). Qed.

(** The text between a boundary and the cut is whitespace. *)
Lemma cut_end_blank (b : str) (q : nat) :
  q <= cut_end b q /\
  visible (firstn (cut_end b q - q) (skipn q b)) = [].
Proof.
  unfold cut_end. destruct (char_before b q) as [p|].
  - destruct (Re.is_terminator p).
    + split; [lia|]. replace (q + _ - q) with (Re.span_space (skipn q b))
        by lia. apply span_space_blank.
    + split; [lia|]. now rewrite Nat.sub_diag.
  - split; [lia|]. now rewrite Nat.sub_diag.
Qed.

Lemma firstn_plus (b : str) (q n : nat) :
  firstn (q + n) b = firstn q b ++ firstn n (skipn q b).
Proof.
  revert b; induction q as [|q IH]; intros b; [reflexivity|].
  destruct b as [|c b]; simpl.
  - now rewrite firstn_nil.
  - now rewrite IH.
Qed.

Lemma firstn_cut_end (b : str) (q : nat) :
  strip (firstn (cut_end b q) b) = strip (firstn q b).
Proof.
  destruct (cut_end_blank b q) as [Hle Hblank].
  replace (cut_end b q) with (q + (cut_end b q - q)) at 1 by lia.
  rewrite firstn_plus. now apply strip_blank_app_r.
Qed.

Lemma find_seq_least (f : nat -> bool) (n : nat) :
  forall k q,
    List.find f (seq k n) = Some q ->
    f q = true /\ forall i, k <= i < q -> f i = false.
Proof.
  induction n as [|n IH]; intros k q; simpl; [discriminate|].
  destruct (f k) eqn:Fk.
  - intros [= <-]. split; [exact Fk|]. intros i Hi. lia.
  - intros H. destruct (IH (S k) q H) as [Hq Hleast].
    split; [exact Hq|]. intros i Hi.
    destruct (Nat.eq_dec i k) as [->|Hne]; [exact Fk|].
    apply Hleast. lia.
Qed.

(** C9, as amended.  The loop cuts the buffer for its earliest sentence
    boundary, yields the text before the boundary, trimmed, when it is not
    blank, and goes on with the rest, until no boundary is left; the cut is
    made behind the whitespace that follows the terminator (only whitespace
    lies between the boundary and the cut), so that whitespace does not stay
    in the buffer.  What is left has no sentence boundary and becomes the
    buffer; the loop runs only when both flags are false. *)
Theorem sentence_extraction_cuts (b : str) :
  match earliest_boundary b with
  | None => extract_sentences b = ([], b)
  | Some q =>
      extract_sentences b =
      (events (yield_if_truthy Sentence (strip (firstn q b)))
         ++ fst (extract_sentences (skipn (cut_end b q) b)),
       snd (extract_sentences (skipn (cut_end b q) b)))
      /\ sentence_boundary b q = true
      /\ (forall i, i < q -> sentence_boundary b i = false)
      /\ q <= cut_end b q
      /\ visible (firstn (cut_end b q - q) (skipn q b)) = []
  end
  /\ earliest_boundary (snd (extract_sentences b)) = None
  /\ (forall st,
         sentence_phase (mkState b (full_response st) false false)
         = (fst (extract_sentences b),
            Returned (mkState (snd (extract_sentences b))
                              (full_response st) false false)))
  /\ (forall st,
         sentence_phase (set_in_marker st true) = ret (set_in_marker st true))
  /\ (forall st,
         sentence_phase (set_in_backticks st true)
         = ret (set_in_backticks st true)).
Proof.
  split; [|split; [|split; [|split]]].
  - rewrite extract_sentences_eq, search_boundary.
    destruct (earliest_boundary b) as [q|] eqn:E; [|reflexivity].
    simpl. rewrite firstn_cut_end.
    destruct (extract_sentences (skipn (cut_end b q) b)).
    destruct (find_seq_least _ _ _ _ E) as [Hq Hleast].
    destruct (cut_end_blank b q) as [Hle Hblank].
    repeat split; try assumption.
    intros i Hi. apply Hleast. lia.
  - pose proof (extract_sentences_rest b) as H.
    rewrite search_boundary in H.
    destruct (earliest_boundary (snd (extract_sentences b)));
      [discriminate | reflexivity].
  - intros st. unfold sentence_phase. simpl.
    now destruct (extract_sentences b).
  - intros st. unfold sentence_phase. reflexivity.
  - intros st. unfold sentence_phase. simpl.
    now destruct (in_marker st).
Qed.

Lemma sentence_extraction_cuts_witness :
  extract_sentences (lit "Hi.  You")
  = ([(Sentence, lit "Hi.")], lit "You")
  /\ sentence_boundary (lit "Hi.  You") 2 = false.
Proof.
  pose proof (sentence_extraction_cuts (lit "Hi.  You")) as [H _].
  change (earliest_boundary (lit "Hi.  You")) with (Some 3) in H.
  destruct H as [Hcut [_ [Hleast _]]].
  split; [exact Hcut | apply Hleast; lia].
Defined.

(** C9, as stated, fails: for the buffer "a. b" the cut at the boundary
    itself would leave " b" in the buffer, and the loop leaves "b". *)
Lemma cut_is_behind_whitespace :
  extract_sentences (lit "a. b") = ([(Sentence, lit "a.")], lit "b")
  /\ spec_extract_sentences (lit "a. b") = ([(Sentence, lit "a.")], lit " b")
  /\ extract_sentences (lit "a. b") <> spec_extract_sentences (lit "a. b").
Proof.
  split; [|split]; [reflexivity | reflexivity | discriminate].
Qed.

(** The whitespace that the loop cuts off with a sentence is lost to the
    later phases: with a start marker that begins with a blank, the marker
    is recognised when it arrives in the chunk of the sentence before it,
    and not when the sentence has been cut off first. *)
Remark cut_whitespace_hides_marker :
  events (_stream_sentences_from_chunks (lit " <") (lit ">") [lit "a. <b>"])
  = [(Sentence, lit "a."); (ClipboardText, lit "b");
     (FullResponse, lit "a. <b>")]
  /\ events (_stream_sentences_from_chunks (lit " <") (lit ">")
                                           [lit "a. "; lit "<b>"])
     = [(Sentence, lit "a."); (Sentence, lit "<b>");
        (FullResponse, lit "a. <b>")].
Proof. split; vm_compute; reflexivity. Qed.

(** ** Where the characters of the input go *)

Lemma pieces_events_app (a b : list piece) :
  pieces_events (a ++ b) = pieces_events a ++ pieces_events b.
Proof. apply flat_map_app. Qed.

Lemma spoken_events (text : str) :
  pieces_events [Spoken text]
  = events (yield_if_truthy Sentence (strip text)).
Proof.
  unfold pieces_events. simpl. now rewrite app_nil_r, yield_if_truthy_events.
Qed.

Lemma spoken_pieces_events (texts : list str) (text : str) :
  pieces_events (List.map Spoken (text :: texts))
  = events (yield_if_truthy Sentence (strip text))
    ++ pieces_events (List.map Spoken texts).
Proof.
  unfold pieces_events. simpl. now rewrite yield_if_truthy_events.
Qed.

Lemma spoken_pieces_complete (texts : list str) :
  Forall complete (List.map Spoken texts).
Proof. apply Forall_map. apply Forall_forall. intros t _. exact I. Qed.

(** The sentence loop: the buffer is the texts of the sentences, one after
    the other, and what the loop leaves. *)
Lemma extract_sentences_pieces (b : str) :
  exists texts,
    pieces_events (List.map Spoken texts) = fst (extract_sentences b)
    /\ concat texts ++ snd (extract_sentences b) = b.
Proof.
  induction b as [b E | b m E IH] using extract_ind;
    rewrite extract_sentences_eq, E.
  - exists []. split; reflexivity.
  - destruct IH as [texts [Hev Htext]].
    destruct (extract_sentences (skipn (Re.m_end m) b)) as [evs rest].
    simpl in *. exists (firstn (Re.m_end m) b :: texts). split.
    + now rewrite spoken_pieces_events, Hev.
    + simpl. rewrite <- app_assoc, Htext. apply firstn_skipn.
Qed.

Section Accounting.

Variables clip_start_marker clip_end_marker : str.

Local Abbreviation pending := (pending clip_start_marker).

Local Abbreviation pieces_text :=
  (pieces_text clip_start_marker clip_end_marker).

Local Abbreviation accounts :=
  (accounts clip_start_marker clip_end_marker).

Lemma pieces_text_app (a b : list piece) :
  pieces_text (a ++ b) = pieces_text a ++ pieces_text b.
Proof. apply flat_map_app. Qed.

Lemma spoken_pieces_text (texts : list str) :
  pieces_text (List.map Spoken texts) = concat texts.
Proof.
  induction texts as [|t texts IH]; [reflexivity|].
  unfold pieces_text in *. simpl. now rewrite IH.
Qed.

Lemma accounts_ret {A} (a : A) (rest : A -> str) (Q : A -> Prop) :
  Q a -> accounts (rest a) (ret a) rest Q.
Proof. intros H. exists []. repeat split; auto. Qed.

Lemma accounts_eq {A} (text : str) (m : gen A) (rest : A -> str)
      (Q : A -> Prop) (pieces : list piece) (a : A) :
  m = (pieces_events pieces, Returned a) ->
  Forall complete pieces ->
  pieces_text pieces ++ rest a = text ->
  Q a ->
  accounts text m rest Q.
Proof. intros -> Hok Hv Hq. exists pieces. repeat split; auto. Qed.

Lemma accounts_raise {A} (text : str) (rest : A -> str) (Q : A -> Prop) :
  accounts text raise rest Q.
Proof. exists []. repeat split; auto. Qed.

Lemma accounts_bind {A B} (text : str) (m : gen A) (f : A -> gen B)
      (rest : A -> str) (rest' : B -> str)
      (Q : A -> Prop) (R : B -> Prop) :
  accounts text m rest Q ->
  (forall a, Q a -> accounts (rest a) (f a) rest' R) ->
  accounts text (bind m f) rest' R.
Proof.
  intros [pieces [Hok [Hev Hm]]] Hf.
  destruct m as [evs [a|]]; simpl in *.
  - destruct Hm as [Hv Hq].
    destruct (Hf a Hq) as [pieces' [Hok' [Hev' Hm']]].
    destruct (f a) as [evs' r]. simpl in *.
    exists (pieces ++ pieces'). unfold events in *. simpl in *.
    split; [|split].
    + apply Forall_app. split; assumption.
    + rewrite pieces_events_app. congruence.
    + destruct r as [b|]; [|exact I].
      destruct Hm' as [Hv' Hr]. split; [|exact Hr].
      rewrite pieces_text_app, <- app_assoc. now rewrite Hv'.
  - exists pieces. repeat split; auto.
Qed.

Lemma pending_outside (st : state) :
  in_marker st = false -> in_backticks st = false -> pending st = buffer st.
Proof. unfold pending. now intros -> ->. Qed.

Lemma pending_inside_marker (st : state) :
  in_marker st = true -> in_backticks st = false ->
  pending st = clip_start_marker ++ buffer st.
Proof. unfold pending. now intros -> ->. Qed.

Lemma pending_inside_fence (st : state) :
  in_backticks st = true -> pending st = fence ++ buffer st.
Proof. unfold pending. now intros ->. Qed.

Lemma pending_append_chunk (st : state) (chunk : str) :
  pending (append_chunk st chunk) = pending st ++ chunk.
Proof.
  unfold pending. simpl.
  destruct (in_backticks st); [reflexivity|].
  destruct (in_marker st); [now rewrite app_assoc | reflexivity].
Qed.

Lemma marker_start_accounts (st : state) :
  outside_fence st ->
  accounts (pending st) (marker_start clip_start_marker st)
           pending outside_fence.
Proof.
  intros B.
  destruct (marker_start_cases clip_start_marker st)
    as [E | [[_ E] | [pre [post [_ [M [Hb E]]]]]]]; rewrite E.
  - now apply accounts_ret.
  - apply accounts_raise.
  - eapply accounts_eq with (pieces := [Spoken pre]).
    + now rewrite spoken_events.
    + constructor; [exact I | constructor].
    + rewrite (pending_outside st M B).
      rewrite pending_inside_marker by (reflexivity || exact B).
      simpl buffer. rewrite Hb.
      unfold pieces_text; cbn [flat_map piece_text].
      now rewrite app_nil_r.
    + exact B.
Qed.

Lemma marker_end_accounts (st : state) :
  outside_fence st ->
  accounts (pending st) (marker_end clip_end_marker st)
           pending outside_fence.
Proof.
  intros B.
  destruct (marker_end_cases clip_end_marker st)
    as [E | [[_ E] | [sec [post [_ [M [Hb E]]]]]]]; rewrite E.
  - now apply accounts_ret.
  - apply accounts_raise.
  - eapply accounts_eq with (pieces := [Marked sec]).
    + reflexivity.
    + constructor; [exact I | constructor].
    + rewrite (pending_inside_marker st M B).
      rewrite pending_outside by (reflexivity || exact B).
      simpl buffer. rewrite Hb.
      unfold pieces_text; cbn [flat_map piece_text].
      now rewrite app_nil_r, <- !app_assoc.
    + exact B.
Qed.

Lemma fence_phase_accounts (st : state) :
  accounts (pending st) (fence_phase st) pending (fun _ => True).
Proof.
  destruct (fence_phase_cases st)
    as [E | [[pre [post [M [B [Hb E]]]]] | [sec [post [M [B [Hb E]]]]]]];
    rewrite E.
  - now apply accounts_ret.
  - eapply accounts_eq with (pieces := [Spoken pre]).
    + now rewrite spoken_events.
    + constructor; [exact I | constructor].
    + rewrite (pending_outside st M B).
      rewrite pending_inside_fence by reflexivity.
      simpl buffer. rewrite Hb.
      unfold pieces_text; cbn [flat_map piece_text].
      now rewrite app_nil_r.
    + exact I.
  - eapply accounts_eq with (pieces := [Fenced sec]).
    + reflexivity.
    + constructor; [exact I | constructor].
    + rewrite (pending_inside_fence st B).
      rewrite pending_outside by (reflexivity || exact M).
      simpl buffer. rewrite Hb.
      unfold pieces_text; cbn [flat_map piece_text].
      now rewrite app_nil_r, <- !app_assoc.
    + exact I.
Qed.

Lemma sentence_phase_accounts (st : state) :
  accounts (pending st) (sentence_phase st) pending (fun _ => True).
Proof.
  destruct (sentence_phase_cases st) as [E | [M [B E]]]; rewrite E.
  - now apply accounts_ret.
  - destruct (extract_sentences_pieces (buffer st)) as [texts [Hev Htext]].
    eapply accounts_eq with (pieces := List.map Spoken texts).
    + now rewrite Hev.
    + apply spoken_pieces_complete.
    + rewrite (pending_outside st M B).
      rewrite pending_outside by (exact M || exact B).
      simpl buffer. now rewrite spoken_pieces_text.
    + exact I.
Qed.

Lemma feed_accounts (st : state) (chunk : str) :
  accounts (pending st ++ chunk)
           (feed clip_start_marker clip_end_marker st chunk)
           pending (fun _ => True).
Proof.
  unfold feed, marker_phase.
  rewrite <- pending_append_chunk.
  set (st0 := append_chunk st chunk).
  eapply accounts_bind with (Q := fun _ => True).
  - destruct (in_backticks st0) eqn:B; simpl.
    + now apply accounts_ret.
    + eapply accounts_bind; [now apply marker_start_accounts|].
      intros st1 B1.
      destruct (marker_end_accounts st1 B1) as [pieces [H1 [H2 H3]]].
      exists pieces. repeat split; auto.
      destruct (snd (marker_end clip_end_marker st1)); [|exact I].
      destruct H3 as [H3 _]. auto.
  - intros st1 _. eapply accounts_bind; [apply fence_phase_accounts|].
    intros st2 _. apply sentence_phase_accounts.
Qed.

Lemma accounts_frame {A} (text x : str) (m : gen A) (rest : A -> str)
      (Q : A -> Prop) :
  accounts text m rest Q ->
  accounts (text ++ x) m (fun a => rest a ++ x) Q.
Proof.
  intros [pieces [Hok [Hev Hm]]]. exists pieces.
  split; [exact Hok|]. split; [exact Hev|].
  destruct (snd m) as [a|]; [|exact I].
  destruct Hm as [Hv Hq]. split; [|exact Hq].
  now rewrite app_assoc, Hv.
Qed.

Lemma feed_all_accounts (chunks_stream : list str) :
  forall st,
    accounts (pending st ++ concat chunks_stream)
             (feed_all clip_start_marker clip_end_marker st chunks_stream)
             pending (fun _ => True).
Proof.
  induction chunks_stream as [|chunk rest IH]; intros st; simpl.
  - rewrite app_nil_r. now apply accounts_ret.
  - rewrite app_assoc.
    eapply accounts_bind; [apply accounts_frame, feed_accounts|].
    intros st1 _. apply IH.
Qed.

(** The flush: what the state holds is one last piece. *)
Lemma flush_accounts (st : state) :
  exists last,
    piece_events last = events (flush st)
    /\ piece_text clip_start_marker clip_end_marker last = pending st.
Proof.
  destruct (flush_cases st)
    as [[T E] | [[T [B E]] | [[T [B [M E]]] | [T [B [M E]]]]]]; rewrite E.
  - destruct (in_backticks st) eqn:B; [|destruct (in_marker st) eqn:M].
    + exists (FencedOpen (buffer st)). simpl. rewrite T.
      now rewrite (pending_inside_fence st B).
    + exists (MarkedOpen (buffer st)). simpl. rewrite T.
      now rewrite (pending_inside_marker st M B).
    + exists (Spoken (buffer st)). simpl. rewrite T.
      now rewrite (pending_outside st M B).
  - exists (FencedOpen (buffer st)). simpl. rewrite T.
    now rewrite (pending_inside_fence st B).
  - exists (Spoken (buffer st)). simpl. rewrite T.
    now rewrite (pending_outside st M B).
  - exists (MarkedOpen (buffer st)). simpl. rewrite T.
    now rewrite (pending_inside_marker st M B).
Qed.

End Accounting.

Lemma sentences_of_visible (s : str) :
  visible (payloads (sentences_of s)) = visible s.
Proof.
  unfold sentences_of, flush_sentence.
  rewrite payloads_app, visible_app, visible_yield_strip, <- visible_app.
  apply extract_sentences_visible.
Qed.

(** The sentences of a text are those of its pieces: the texts the loop
    cuts off, and what the loop leaves. *)
Lemma sentences_of_pieces (s : str) :
  exists texts,
    concat texts = s
    /\ sentences_of s = pieces_events (List.map Spoken texts).
Proof.
  destruct (extract_sentences_pieces s) as [texts [Hev Htext]].
  exists (texts ++ [snd (extract_sentences s)]). split.
  - rewrite concat_app. simpl. now rewrite app_nil_r.
  - unfold sentences_of, flush_sentence.
    rewrite List.map_app, pieces_events_app, Hev. simpl List.map.
    now rewrite spoken_events.
Qed.

(** C6, as amended.  With markers that are not empty, the input is the text
    of a list of pieces, one after the other, and the output before its
    [full_response] event is the events of these pieces, in the same order.
    A piece is text outside every span, yielded trimmed as one sentence
    unless it is blank; or a marker span (start marker, text, end marker),
    yielded as the clipboard text of the trimmed text, without the markers;
    or a fence span (fence, text, fence), yielded as the clipboard text of
    the trimmed text between fences, and the confirmation sentence; or, as
    the last piece only, a span the stream ends in (its opening delimiter
    and text), yielded as the clipboard text of the trimmed text, behind
    the fence if it is a fence span, unless the text is blank.  When the
    input contains neither the start marker nor a fence, every piece is
    text outside every span. *)
Theorem input_is_accounted_for
        (clip_start_marker clip_end_marker : str) (chunks_stream : list str) :
  clip_start_marker <> [] ->
  clip_end_marker <> [] ->
  (exists pieces last,
      Forall complete pieces
      /\ pieces_text clip_start_marker clip_end_marker (pieces ++ [last])
         = concat chunks_stream
      /\ events (_stream_sentences_from_chunks
                   clip_start_marker clip_end_marker chunks_stream)
         = pieces_events (pieces ++ [last])
           ++ events (yield_if_truthy FullResponse
                                      (strip (concat chunks_stream))))
  /\ (contains clip_start_marker (concat chunks_stream) = false ->
      contains fence (concat chunks_stream) = false ->
      exists texts,
        concat texts = concat chunks_stream
        /\ events (_stream_sentences_from_chunks
                     clip_start_marker clip_end_marker chunks_stream)
           = pieces_events (List.map Spoken texts)
             ++ events (yield_if_truthy FullResponse
                                        (strip (concat chunks_stream)))).
Proof.
  intros Hs He. split.
  - destruct (runs_inv (feed_all_runs clip_start_marker clip_end_marker
                                      Hs He chunks_stream initial))
      as [evs [st [E [_ Hfull]]]].
    destruct (runs_inv (flush_runs st)) as [evf [[] [F _]]].
    simpl in Hfull.
    destruct (feed_all_accounts clip_start_marker clip_end_marker
                                chunks_stream initial)
      as [pieces [Hok [Hev Hv]]].
    destruct (flush_accounts clip_start_marker clip_end_marker st)
      as [last [Hev' Hv']].
    rewrite E in Hev, Hv. rewrite F in Hev'. simpl in *.
    destruct Hv as [Hv _].
    exists pieces, last. split; [exact Hok|]. split.
    + unfold pieces_text in *. rewrite flat_map_app. simpl.
      now rewrite app_nil_r, Hv'.
    + unfold _stream_sentences_from_chunks. rewrite E.
      unfold bind at 1. rewrite F. unfold final. rewrite Hfull.
      rewrite pieces_events_app, Hev.
      unfold pieces_events. simpl flat_map. rewrite app_nil_r, Hev'.
      destruct (yield_if_truthy FullResponse (strip (concat chunks_stream)))
        as [evl r]. simpl. now rewrite app_assoc.
  - intros Cs Cf. rewrite segment_plain by assumption. simpl events.
    destruct (sentences_of_pieces (concat chunks_stream)) as [texts [Ht Hev]].
    exists texts. split; [exact Ht|]. now rewrite Hev.
Qed.

Lemma input_is_accounted_for_witness :
  (exists pieces last,
      Forall complete pieces
      /\ pieces_text CLIPSTART CLIPEND (pieces ++ [last])
         = concat [lit "Hello -CLIPSTART-sec"; lit "ret-CLIPEND- world."]
      /\ events (segment_default
                   [lit "Hello -CLIPSTART-sec"; lit "ret-CLIPEND- world."])
         = pieces_events (pieces ++ [last])
           ++ events (yield_if_truthy FullResponse
                        (strip (concat [lit "Hello -CLIPSTART-sec";
                                        lit "ret-CLIPEND- world."]))))
  /\ (exists texts,
         concat texts = concat [lit "One. "; lit "Two"]
         /\ events (segment_default [lit "One. "; lit "Two"])
            = pieces_events (List.map Spoken texts)
              ++ events (yield_if_truthy FullResponse
                           (strip (concat [lit "One. "; lit "Two"])))).
Proof.
  split.
  - apply (input_is_accounted_for
             CLIPSTART CLIPEND
             [lit "Hello -CLIPSTART-sec"; lit "ret-CLIPEND- world."]);
      discriminate.
  - apply (input_is_accounted_for CLIPSTART CLIPEND [lit "One. "; lit "Two"]);
      try discriminate; reflexivity.
Defined.

(** C6, as stated, fails: the markers of the marker text reach no payload,
    so the payloads do not reconstruct the input, even with all whitespace
    left out of the comparison. *)
Lemma markers_are_not_emitted :
  visible (payloads (spoken_or_copied (events (segment_default [marker_text]))))
  = lit "Hellosecretworld."
  /\ visible marker_text = lit "Hello-CLIPSTART-secret-CLIPEND-world."
  /\ visible (payloads
                (spoken_or_copied (events (segment_default [marker_text]))))
     <> visible marker_text.
Proof.
  split; [|split]; [vm_compute; reflexivity | vm_compute; reflexivity |].
  vm_compute. discriminate.
Qed.

(* ================================================================= *)
(** * Further properties of the segmenter *)

(** ** Trimming twice *)

Lemma lstrip_app (a b : str) :
  lstrip (a ++ b) =
  match lstrip a with
  | [] => lstrip b
  | c :: l => (c :: l) ++ b
  end.
Proof.
  induction a as [|c a IH]; [reflexivity|].
  simpl. destruct (is_space c); [exact IH | reflexivity].
Qed.

Lemma rstrip_app (a b : str) :
  rstrip (a ++ b) =
  match rstrip b with
  | [] => rstrip a
  | c :: r => a ++ c :: r
  end.
Proof.
  unfold rstrip. rewrite rev_app_distr, lstrip_app.
  destruct (lstrip (rev b)) as [|c l] eqn:E; [reflexivity|].
  rewrite rev_app_distr, rev_involutive.
  destruct (rev (c :: l)) eqn:R; [|reflexivity].
  apply (f_equal (@length char)) in R. rewrite length_rev in R.
  discriminate R.
Qed.

Lemma rstrip_nil : rstrip [] = [].
Proof. reflexivity. Qed.

Lemma rstrip_single (c : char) :
  rstrip [c] = if is_space c then [] else [c].
Proof. unfold rstrip. simpl. now destruct (is_space c). Qed.

Lemma rstrip_cons (c : char) (t : str) :
  rstrip (c :: t) =
  match rstrip t with
  | [] => if is_space c then [] else [c]
  | d :: r => c :: d :: r
  end.
Proof.
  change (c :: t) with ([c] ++ t). rewrite rstrip_app.
  destruct (rstrip t); [apply rstrip_single | reflexivity].
Qed.

Lemma lstrip_rstrip (t : str) : lstrip (rstrip t) = rstrip (lstrip t).
Proof.
  induction t as [|c t IH]; [reflexivity|].
  rewrite rstrip_cons. simpl lstrip at 2.
  destruct (is_space c) eqn:E.
  - rewrite <- IH. destruct (rstrip t) as [|d r]; [reflexivity|].
    simpl. now rewrite E.
  - rewrite rstrip_cons.
    destruct (rstrip t) as [|d r]; simpl; now rewrite E.
Qed.

Lemma lstrip_idempotent (s : str) : lstrip (lstrip s) = lstrip s.
Proof.
  induction s as [|c s IH]; [reflexivity|].
  simpl. destruct (is_space c) eqn:E; [exact IH|].
  simpl. now rewrite E.
Qed.

Lemma rstrip_idempotent (s : str) : rstrip (rstrip s) = rstrip s.
Proof.
  unfold rstrip. now rewrite rev_involutive, lstrip_idempotent.
Qed.

(** [s.strip().strip() == s.strip()] *)
Lemma strip_idempotent (s : str) : strip (strip s) = strip s.
Proof.
  unfold strip.
  now rewrite lstrip_rstrip, lstrip_idempotent, rstrip_idempotent.
Qed.

Lemma rstrip_truthy (s : str) : truthy (rstrip s) = truthy (visible s).
Proof.
  destruct (visible s) eqn:E.
  - unfold rstrip. rewrite lstrip_blank; [reflexivity|].
    now rewrite visible_rev, E.
  - destruct (rstrip s) eqn:F; [|reflexivity].
    rewrite <- visible_rstrip, F in E. discriminate.
Qed.

(** A text between two characters that are not whitespace is trimmed. *)
Lemma strip_framed (c d : char) (s : str) :
  is_space c = false -> is_space d = false ->
  strip (c :: s ++ [d]) = c :: s ++ [d].
Proof.
  intros Hc Hd. unfold strip. simpl. rewrite Hc.
  change (c :: s ++ [d]) with ((c :: s) ++ [d]).
  rewrite rstrip_app, rstrip_single, Hd. reflexivity.
Qed.

(** A trimmed text that is not empty stays trimmed behind a character that
    is not whitespace. *)
Lemma strip_headed (c : char) (a t : str) :
  is_space c = false -> strip t = t -> truthy t = true ->
  strip (c :: a ++ t) = c :: a ++ t.
Proof.
  intros Hc Ht Hne. unfold strip. simpl. rewrite Hc.
  change (c :: a ++ t) with ((c :: a) ++ t). rewrite rstrip_app.
  assert (Hr : rstrip t = t).
  { transitivity (rstrip (strip t)); [now rewrite Ht|].
    unfold strip. rewrite rstrip_idempotent. exact Ht. }
  rewrite Hr. destruct t; [discriminate | reflexivity].
Qed.

(** ** What holds of every event of a stream *)

(** A property of events that holds at each place of the body that yields
    holds of the whole output. *)
Lemma stream_events_all (E : event -> Prop)
      (clip_start_marker clip_end_marker : str) :
  (forall st, Forall E (events (marker_start clip_start_marker st))) ->
  (forall st, Forall E (events (marker_end clip_end_marker st))) ->
  (forall st, Forall E (events (fence_phase st))) ->
  (forall st, Forall E (events (sentence_phase st))) ->
  (forall st, Forall E (events (flush st))) ->
  (forall st, Forall E (events (final st))) ->
  forall chunks_stream,
    Forall E (events (_stream_sentences_from_chunks
                        clip_start_marker clip_end_marker chunks_stream)).
Proof.
  intros Hs He Hf Hx Hfl Hfi chunks.
  assert (Hfeed : forall st chunk,
             ok E (feed clip_start_marker clip_end_marker st chunk)
                (fun _ => True)).
  { intros st chunk. unfold feed, marker_phase.
    eapply ok_bind with (Q := fun _ => True).
    - destruct (negb (in_backticks (append_chunk st chunk)));
        [|now apply ok_ret].
      eapply ok_bind with (Q := fun _ => True); [apply ok_events, Hs|].
      intros st1 _. apply ok_events, He.
    - intros st1 _. eapply ok_bind with (Q := fun _ => True);
        [apply ok_events, Hf|].
      intros st2 _. apply ok_events, Hx. }
  assert (Hall : forall cs st,
             ok E (feed_all clip_start_marker clip_end_marker st cs)
                (fun _ => True)).
  { induction cs as [|c cs IH]; intros st; simpl.
    - now apply ok_ret.
    - eapply ok_bind; [apply Hfeed|]. intros st1 _. apply IH. }
  unfold _stream_sentences_from_chunks.
  eapply ok_bind with (Q := fun _ => True); [apply Hall|].
  intros st _. eapply ok_bind with (Q := fun _ => True);
    [apply ok_events, Hfl|].
  intros _ _. apply ok_events, Hfi.
Qed.

(** ** Payloads are trimmed *)

Lemma trimmed_yield_if_truthy (k : kind) (s : str) :
  Forall trimmed (events (yield_if_truthy k (strip s))).
Proof.
  rewrite yield_if_truthy_events.
  destruct (truthy (strip s)); repeat constructor.
  apply strip_idempotent.
Qed.

Lemma backtick_not_space : is_space 96%N = false.
Proof. reflexivity. Qed.

Lemma trimmed_fenced (s : str) : strip (fence ++ s ++ fence) = fence ++ s ++ fence.
Proof.
  change (fence ++ s ++ fence)
    with (96%N :: [96%N; 96%N] ++ s ++ [96%N; 96%N] ++ [96%N]).
  rewrite !app_assoc. rewrite <- (app_assoc [96%N; 96%N] s).
  apply strip_framed; apply backtick_not_space.
Qed.

Lemma trimmed_reopened (s : str) :
  truthy (strip s) = true -> strip (fence ++ strip s) = fence ++ strip s.
Proof.
  intros T. change (fence ++ strip s) with (96%N :: [96%N; 96%N] ++ strip s).
  apply strip_headed;
    [apply backtick_not_space | apply strip_idempotent | exact T].
Qed.

Lemma extract_sentences_trimmed (b : str) :
  Forall trimmed (fst (extract_sentences b)).
Proof.
  induction b as [b E | b m E IH] using extract_ind;
    rewrite extract_sentences_eq, E.
  - constructor.
  - destruct (extract_sentences (skipn (Re.m_end m) b)) as [evs rest].
    simpl in *. apply Forall_app. split; [|exact IH].
    apply trimmed_yield_if_truthy.
Qed.

(** X1.  Whatever the markers and the chunks, every payload the generator
    yields is trimmed: trimming it again changes nothing. *)
Theorem payloads_are_trimmed
        (clip_start_marker clip_end_marker : str) (chunks_stream : list str) :
  Forall (fun e => strip (snd e) = snd e)
         (events (_stream_sentences_from_chunks
                    clip_start_marker clip_end_marker chunks_stream)).
Proof.
  apply (stream_events_all trimmed).
  - intros st. destruct (marker_start_cases clip_start_marker st)
      as [-> | [[_ ->] | [pre [post [_ [_ [_ ->]]]]]]]; try constructor.
    apply trimmed_yield_if_truthy.
  - intros st. destruct (marker_end_cases clip_end_marker st)
      as [-> | [[_ ->] | [sec [post [_ [_ [_ ->]]]]]]]; try constructor;
      [apply strip_idempotent | constructor].
  - intros st. destruct (fence_phase_cases st)
      as [-> | [[pre [post [_ [_ [_ ->]]]]] | [sec [post [_ [_ [_ ->]]]]]]].
    + constructor.
    + apply trimmed_yield_if_truthy.
    + constructor; [apply trimmed_fenced|].
      constructor; [reflexivity | constructor].
  - intros st. destruct (sentence_phase_cases st) as [-> | [_ [_ ->]]];
      [constructor | apply extract_sentences_trimmed].
  - intros st. destruct (flush_cases st)
      as [[_ ->] | [[T [_ ->]] | [[T [_ [_ ->]]] | [T [_ [_ ->]]]]]];
      repeat constructor; unfold trimmed; simpl.
    + now apply trimmed_reopened.
    + apply strip_idempotent.
    + apply strip_idempotent.
  - intros st. apply trimmed_yield_if_truthy.
Qed.

(** ** Sentence boundaries of parts of a text *)

Lemma newline_is_space (p : char) :
  Re.is_newline p = true -> is_space p = true.
Proof.
  unfold Re.is_newline. intros H. apply N.eqb_eq in H. now subst.
Qed.

(** Whether the search finds a match does not depend on the position it is
    started from. *)
Lemma search_from_none_pos (prev : option char) (rest : str) (pos : nat) :
  Re.search_from prev rest pos = None <-> Re.search_from prev rest 0 = None.
Proof.
  induction pos as [|pos IH]; [reflexivity|].
  rewrite search_from_shift, <- IH.
  destruct (Re.search_from prev rest pos); simpl; split; congruence.
Qed.

Lemma search_from_none_suffix (y : str) (prev : option char) (pos : nat) :
  Re.search_from prev y pos = None -> Re.search y = None.
Proof.
  unfold Re.search. rewrite search_from_eq, (search_from_eq None).
  destruct (Re.match_here prev y pos); [discriminate|].
  destruct y as [|c y]; [reflexivity|].
  simpl Re.match_here. intros H.
  apply search_from_none_pos in H. now apply search_from_none_pos.
Qed.

(** A text without sentence boundary has none in its parts. *)
Lemma search_none_app_r (x y : str) :
  Re.search (x ++ y) = None -> Re.search y = None.
Proof.
  unfold Re.search at 1. generalize (@None char) as prev. generalize 0 as pos.
  induction x as [|d x IH]; intros pos prev H.
  - now apply search_from_none_suffix in H.
  - simpl app in H. rewrite search_from_eq in H.
    destruct (Re.match_here prev (d :: x ++ y) pos); [discriminate|].
    now apply IH in H.
Qed.

Lemma search_none_app_l (x y : str) :
  Re.search (x ++ y) = None -> Re.search x = None.
Proof.
  intros H. destruct (Re.search x) as [m|] eqn:E; [|reflexivity].
  rewrite (search_app x y m E) in H. discriminate.
Qed.

Lemma lstrip_suffix (s : str) : exists l, s = l ++ lstrip s.
Proof.
  induction s as [|c s [l IH]]; [now exists []|].
  simpl. destruct (is_space c).
  - exists (c :: l). simpl. now rewrite <- IH.
  - now exists [].
Qed.

Lemma rstrip_prefix (s : str) : exists r, s = rstrip s ++ r.
Proof.
  destruct (lstrip_suffix (rev s)) as [l H].
  exists (rev l). unfold rstrip. rewrite <- rev_app_distr, <- H.
  now rewrite rev_involutive.
Qed.

Lemma search_none_strip (s : str) :
  Re.search s = None -> Re.search (strip s) = None.
Proof.
  intros H. destruct (lstrip_suffix s) as [l Hl].
  destruct (rstrip_prefix (lstrip s)) as [r Hr].
  rewrite Hl in H. apply search_none_app_r in H.
  rewrite Hr in H. now apply search_none_app_l in H.
Qed.

(** A character that is not whitespace at the end of a text adds no
    sentence boundary. *)
Lemma search_from_none_snoc (c : char) (x : str) :
  is_space c = false ->
  forall prev pos,
    Re.search_from prev x pos = None ->
    Re.search_from prev (x ++ [c]) pos = None.
Proof.
  intros Hc.
  assert (Hn : Re.is_newline c = false).
  { destruct (Re.is_newline c) eqn:E; [|reflexivity].
    apply newline_is_space in E. congruence. }
  induction x as [|d x IH]; intros prev pos H.
  - rewrite search_from_eq in H. simpl app. rewrite search_from_eq.
    assert (Hm : Re.match_here prev [c] pos = None).
    { unfold Re.match_here in *. destruct prev as [p|]; [|reflexivity].
      simpl Re.span_space in *. rewrite Hc.
      change (0 <? 0) with false in *. rewrite andb_false_r in *.
      destruct (Re.is_newline p); [discriminate | reflexivity]. }
    rewrite Hm, search_from_eq. unfold Re.match_here.
    simpl Re.span_space. change (0 <? 0) with false.
    now rewrite andb_false_r, Hn.
  - rewrite search_from_eq in H.
    destruct (Re.match_here prev (d :: x) pos) eqn:E; [discriminate|].
    rewrite search_from_eq, (match_here_app_none _ _ _ [c] _ E).
    simpl app. now apply IH.
Qed.

Lemma search_boundary_none (b : str) :
  Re.search b = None <-> earliest_boundary b = None.
Proof.
  rewrite search_boundary.
  destruct (earliest_boundary b); simpl; split; congruence.
Qed.

Lemma firstn_snoc (b : str) (i : nat) (c : char) :
  nth_error b i = Some c -> firstn (S i) b = firstn i b ++ [c].
Proof.
  revert b; induction i as [|i IH]; intros [|d b] H; try discriminate.
  - simpl in H. injection H as ->. reflexivity.
  - simpl in H. simpl. f_equal. now apply IH.
Qed.

(** The text before the earliest sentence boundary, trimmed, has no
    sentence boundary. *)
Lemma before_boundary_single (b : str) (q : nat) :
  earliest_boundary b = Some q ->
  Re.search (strip (firstn q b)) = None.
Proof.
  intros E.
  destruct (find_seq_least _ _ _ _ E) as [Hq _].
  unfold sentence_boundary in Hq.
  destruct q as [|i]; [discriminate|]. simpl char_before in Hq.
  destruct (nth_error b i) as [p|] eqn:Hp; [|discriminate].
  rewrite (firstn_snoc b i p Hp).
  assert (Hx : Re.search (firstn i b) = None).
  { destruct (Re.search (firstn i b)) as [m|] eqn:Hs; [|reflexivity].
    exfalso.
    pose proof (search_bounds _ _ Hs) as Hb.
    pose proof (search_app _ (skipn i b) _ Hs) as Happ.
    rewrite firstn_skipn, search_boundary, E in Happ. simpl in Happ.
    injection Happ as Hstart.
    apply (f_equal Re.m_start) in Hstart.
    unfold extend_match in Hstart.
    rewrite length_firstn in Hb, Hstart.
    destruct ((Re.m_end m =? Nat.min i (length b))
              && (Re.m_start m <? Re.m_end m));
      simpl in Hstart; lia. }
  destruct (Re.is_terminator p) eqn:T.
  - apply search_none_strip. unfold Re.search.
    apply search_from_none_snoc; [now apply terminator_not_space | exact Hx].
  - simpl in Hq. apply newline_is_space in Hq.
    rewrite strip_blank_app_r by now rewrite visible_cons_space.
    now apply search_none_strip.
Qed.

Lemma single_yield_if_truthy (s : str) :
  Re.search s = None ->
  Forall single_sentence (events (yield_if_truthy Sentence s)).
Proof.
  intros H. rewrite yield_if_truthy_events.
  destruct (truthy s); repeat constructor.
  now apply search_boundary_none.
Qed.

Lemma extract_sentences_single (b : str) :
  Forall single_sentence (fst (extract_sentences b)).
Proof.
  induction b as [b E | b m E IH] using extract_ind;
    rewrite extract_sentences_eq, E.
  - constructor.
  - destruct (extract_sentences (skipn (Re.m_end m) b)) as [evs rest].
    simpl in *. apply Forall_app. split; [|exact IH].
    apply single_yield_if_truthy.
    rewrite search_boundary in E.
    destruct (earliest_boundary b) as [q|] eqn:Q; [|discriminate].
    injection E as <-. simpl Re.m_end.
    rewrite firstn_cut_end. now apply before_boundary_single.
Qed.

Lemma sentences_of_single (text : str) :
  Forall single_sentence (sentences_of text).
Proof.
  unfold sentences_of, flush_sentence. apply Forall_app. split.
  - apply extract_sentences_single.
  - apply single_yield_if_truthy, search_none_strip,
      extract_sentences_rest.
Qed.

(** X2.  Every sentence the extraction loop yields has no sentence
    boundary inside; and for a text without start marker and without
    fence, however it is chunked, every event of the output but the
    [full_response] event is such a sentence. *)
Theorem sentences_are_single
        (clip_start_marker clip_end_marker : str) :
  (forall st, Forall single_sentence (events (sentence_phase st)))
  /\ (forall chunks_stream,
         contains clip_start_marker (concat chunks_stream) = false ->
         contains fence (concat chunks_stream) = false ->
         exists body,
           events (_stream_sentences_from_chunks
                     clip_start_marker clip_end_marker chunks_stream)
           = body ++ events (yield_if_truthy FullResponse
                                             (strip (concat chunks_stream)))
           /\ Forall single_sentence body).
Proof.
  split.
  - intros st. destruct (sentence_phase_cases st) as [-> | [_ [_ ->]]];
      [constructor | apply extract_sentences_single].
  - intros chunks Cs Cf. exists (sentences_of (concat chunks)).
    rewrite segment_plain by assumption.
    split; [reflexivity | apply sentences_of_single].
Qed.

Lemma sentences_are_single_witness :
  exists body,
    events (segment_default [lit "One.  Two"; lit "! Three"])
    = body ++ [(FullResponse, lit "One.  Two! Three")]
    /\ Forall single_sentence body.
Proof.
  apply (proj2 (sentences_are_single CLIPSTART CLIPEND)
               [lit "One.  Two"; lit "! Three"]); reflexivity.
Defined.

(** X3.  For a text without start marker and without fence the output
    depends on the text only: two streams with the same concatenation give
    the same events and the same outcome. *)
Theorem plain_text_chunking_independent
        (clip_start_marker clip_end_marker : str)
        (chunks_stream chunks_stream' : list str) :
  concat chunks_stream = concat chunks_stream' ->
  contains clip_start_marker (concat chunks_stream) = false ->
  contains fence (concat chunks_stream) = false ->
  _stream_sentences_from_chunks clip_start_marker clip_end_marker chunks_stream
  = _stream_sentences_from_chunks clip_start_marker clip_end_marker
                                  chunks_stream'.
Proof.
  intros Heq Cs Cf.
  rewrite (segment_plain _ _ chunks_stream Cs Cf).
  rewrite Heq in Cs, Cf.
  rewrite (segment_plain _ _ chunks_stream' Cs Cf).
  now rewrite Heq.
Qed.

Lemma plain_text_chunking_independent_witness :
  _stream_sentences_from_chunks CLIPSTART CLIPEND
                                [lit "Wait.  W"; []; lit "hy? Now"]
  = _stream_sentences_from_chunks CLIPSTART CLIPEND
                                  [lit "Wait"; lit ".  Why? N"; lit "ow"].
Proof.
  apply (plain_text_chunking_independent
           CLIPSTART CLIPEND
           [lit "Wait.  W"; []; lit "hy? Now"]
           [lit "Wait"; lit ".  Why? N"; lit "ow"]); reflexivity.
Defined.

(** ** The first occurrence of a delimiter *)

Lemma startswith_length (s sub : str) :
  startswith s sub = true -> length sub <= length s.
Proof.
  intros H. pose proof (startswith_split _ _ H) as E.
  apply (f_equal (@length char)) in E. rewrite length_app in E. lia.
Qed.

Lemma find_bound (s sub : str) (i : nat) :
  find s sub = Some i -> i + length sub <= length s.
Proof.
  revert i; induction s as [|c s IH]; intros i; simpl.
  - destruct (startswith [] sub) eqn:E; [|discriminate].
    intros [= <-]. apply startswith_length in E. simpl in *. lia.
  - destruct (startswith (c :: s) sub) eqn:E.
    + intros [= <-]. apply startswith_length in E. simpl in *. lia.
    + destruct (find s sub) as [j|]; [|discriminate].
      intros [= <-]. specialize (IH j eq_refl). simpl. lia.
Qed.

Lemma startswith_app_fits (s sub rest : str) :
  length sub <= length s ->
  startswith (s ++ rest) sub = startswith s sub.
Proof.
  revert s; induction sub as [|a sub IH]; intros s H; [reflexivity|].
  destruct s as [|b s]; [simpl in H; lia|].
  simpl. f_equal. apply IH. simpl in H. lia.
Qed.

(** The first occurrence in a text is the first occurrence in every
    extension of the text. *)
Lemma find_app_found (s sub rest : str) (i : nat) :
  find s sub = Some i -> find (s ++ rest) sub = Some i.
Proof.
  revert i; induction s as [|c s IH]; intros i H.
  - simpl in H. destruct (startswith [] sub) eqn:E; [|discriminate].
    injection H as <-. destruct sub; [|discriminate].
    now destruct rest.
  - pose proof (find_bound _ _ _ H) as Hb.
    simpl in H. simpl app. simpl find.
    destruct (startswith (c :: s) sub) eqn:E.
    + change (c :: s ++ rest) with ((c :: s) ++ rest).
      now rewrite (startswith_app_l _ _ rest E).
    + destruct (find s sub) as [j|] eqn:F; [|discriminate].
      injection H as <-.
      change (c :: s ++ rest) with ((c :: s) ++ rest).
      rewrite startswith_app_fits, E by lia.
      now rewrite (IH j eq_refl).
Qed.

Lemma contains_find (sub s : str) :
  contains sub s = true -> exists i, find s sub = Some i.
Proof.
  unfold contains. destruct (find s sub) as [i|]; [eauto | discriminate].
Qed.

Lemma find_contains (sub s : str) (i : nat) :
  find s sub = Some i -> contains sub s = true.
Proof. unfold contains. now intros ->. Qed.

Lemma contains_nil (s : str) : contains [] s = true.
Proof. now destruct s. Qed.

Lemma firstn_app_fits (s rest : str) (i : nat) :
  i <= length s -> firstn i (s ++ rest) = firstn i s.
Proof.
  intros H. rewrite firstn_app.
  replace (i - length s) with 0 by lia. apply app_nil_r.
Qed.

(** ** The phases, when a delimiter is in the buffer *)

Lemma partition_gen_find (s sep : str) (i : nat) :
  sep <> [] -> find s sep = Some i ->
  partition_gen s sep = ret (firstn i s, sep, skipn (i + length sep) s).
Proof.
  intros Hne F. unfold partition_gen, partition.
  destruct sep; [contradiction|]. now rewrite F.
Qed.

Lemma marker_start_fires (clip_start_marker : str) (st : state) (i : nat) :
  clip_start_marker <> [] ->
  in_marker st = false ->
  find (buffer st) clip_start_marker = Some i ->
  marker_start clip_start_marker st =
  (events (yield_if_truthy Sentence (strip (firstn i (buffer st)))),
   Returned (set_in_marker
               (set_buffer st (skipn (i + length clip_start_marker)
                                     (buffer st)))
               true)).
Proof.
  intros Hne M F. unfold marker_start.
  rewrite (find_contains _ _ _ F), M. simpl.
  rewrite (partition_gen_find _ _ _ Hne F), bind_ret_l.
  now rewrite bind_unit by apply yield_if_truthy_returns.
Qed.

Lemma marker_end_fires (clip_end_marker : str) (st : state) (i : nat) :
  clip_end_marker <> [] ->
  in_marker st = true ->
  find (buffer st) clip_end_marker = Some i ->
  marker_end clip_end_marker st =
  ([(ClipboardText, strip (firstn i (buffer st)))],
   Returned (set_in_marker
               (set_buffer st (skipn (i + length clip_end_marker)
                                     (buffer st)))
               false)).
Proof.
  intros Hne M F. unfold marker_end.
  rewrite (find_contains _ _ _ F), M. simpl.
  now rewrite (partition_gen_find _ _ _ Hne F), bind_ret_l.
Qed.

Lemma marker_end_empty (st : state) :
  in_marker st = true -> marker_end [] st = raise.
Proof.
  intros M. unfold marker_end. now rewrite contains_nil, M.
Qed.

Lemma fence_close_fires (st : state) (i : nat) :
  in_marker st = false ->
  in_backticks st = true ->
  find (buffer st) fence = Some i ->
  fence_phase st =
  ([(ClipboardText, fence ++ strip (firstn i (buffer st)) ++ fence);
    (Sentence, confirmation)],
   Returned (set_in_backticks
               (set_buffer st (skipn (i + length fence) (buffer st)))
               false)).
Proof.
  intros M B F. unfold fence_phase.
  rewrite M, B, (find_contains _ _ _ F). simpl.
  rewrite (partition_gen_find (buffer st) fence i) by (discriminate || exact F).
  now rewrite bind_ret_l.
Qed.

Lemma marker_start_inside_marker (clip_start_marker : str) (st : state) :
  in_marker st = true -> marker_start clip_start_marker st = ret st.
Proof. unfold marker_start. intros ->. now rewrite andb_false_r. Qed.

Lemma marker_end_absent (clip_end_marker : str) (st : state) :
  contains clip_end_marker (buffer st) = false ->
  marker_end clip_end_marker st = ret st.
Proof. unfold marker_end. now intros ->. Qed.

Lemma sentence_phase_inside_marker (st : state) :
  in_marker st = true -> sentence_phase st = ret st.
Proof. unfold sentence_phase. now intros ->. Qed.

Lemma sentence_phase_inside_fence (st : state) :
  in_backticks st = true -> sentence_phase st = ret st.
Proof. unfold sentence_phase. intros ->. now rewrite andb_false_r. Qed.

(** ** Inside an open span *)

Section Spans.

Variables clip_start_marker clip_end_marker : str.

Local Abbreviation feed := (feed clip_start_marker clip_end_marker).
Local Abbreviation feed_all := (feed_all clip_start_marker clip_end_marker).

(** Inside a marker span whose end marker has not arrived, a chunk is only
    appended to the buffer. *)
Lemma feed_inside_marker (st : state) (chunk : str) :
  in_marker st = true ->
  in_backticks st = false ->
  contains clip_end_marker (buffer st ++ chunk) = false ->
  feed st chunk = ret (append_chunk st chunk).
Proof.
  intros M B C. unfold feed, marker_phase.
  set (st0 := append_chunk st chunk).
  assert (M0 : in_marker st0 = true) by exact M.
  assert (B0 : in_backticks st0 = false) by exact B.
  rewrite B0. cbn [negb].
  rewrite (marker_start_inside_marker _ st0 M0), bind_ret_l.
  rewrite (marker_end_absent _ st0 C), bind_ret_l.
  rewrite (fence_phase_inside_marker st0 M0), bind_ret_l.
  apply (sentence_phase_inside_marker st0 M0).
Qed.

(** Inside a fence span whose closing fence has not arrived, too. *)
Lemma feed_inside_fence (st : state) (chunk : str) :
  in_backticks st = true ->
  contains fence (buffer st ++ chunk) = false ->
  feed st chunk = ret (append_chunk st chunk).
Proof.
  intros B C. unfold feed.
  set (st0 := append_chunk st chunk).
  assert (B0 : in_backticks st0 = true) by exact B.
  rewrite (marker_phase_inside_fence _ _ st0 B0), bind_ret_l.
  rewrite (fence_phase_skip st0 C), bind_ret_l.
  apply (sentence_phase_inside_fence st0 B0).
Qed.

Lemma feed_all_inside_marker (chunks_stream : list str) :
  forall st,
    in_marker st = true ->
    in_backticks st = false ->
    contains clip_end_marker (buffer st ++ concat chunks_stream) = false ->
    feed_all st chunks_stream =
    ret (mkState (buffer st ++ concat chunks_stream)
                 (full_response st ++ concat chunks_stream) true false).
Proof.
  induction chunks_stream as [|chunk rest IH]; intros st M B C;
    cbn [feed_all concat].
  - rewrite !app_nil_r. destruct st; simpl in *. now subst.
  - cbn [concat] in C. rewrite app_assoc in C.
    destruct (absent_app _ _ _ C) as [C1 _].
    rewrite (feed_inside_marker st chunk M B C1), bind_ret_l.
    rewrite (IH (append_chunk st chunk) M B C). simpl.
    now rewrite <- !app_assoc.
Qed.

Lemma feed_all_inside_fence (chunks_stream : list str) :
  forall st,
    in_marker st = false ->
    in_backticks st = true ->
    contains fence (buffer st ++ concat chunks_stream) = false ->
    feed_all st chunks_stream =
    ret (mkState (buffer st ++ concat chunks_stream)
                 (full_response st ++ concat chunks_stream) false true).
Proof.
  induction chunks_stream as [|chunk rest IH]; intros st M B C;
    cbn [feed_all concat].
  - rewrite !app_nil_r. destruct st; simpl in *. now subst.
  - cbn [concat] in C. rewrite app_assoc in C.
    destruct (absent_app _ _ _ C) as [C1 _].
    rewrite (feed_inside_fence st chunk B C1), bind_ret_l.
    rewrite (IH (append_chunk st chunk) M B C). simpl.
    now rewrite <- !app_assoc.
Qed.

(** The chunk that completes the end marker yields the clipboard text
    first. *)
Lemma feed_closes_marker (st : state) (chunk : str) (i : nat) :
  clip_end_marker <> [] ->
  in_marker st = true ->
  in_backticks st = false ->
  find (buffer st ++ chunk) clip_end_marker = Some i ->
  exists rest,
    events (feed st chunk)
    = (ClipboardText, strip (firstn i (buffer st ++ chunk))) :: rest.
Proof.
  intros Hne M B F. unfold feed, marker_phase.
  set (st0 := append_chunk st chunk).
  assert (M0 : in_marker st0 = true) by exact M.
  assert (B0 : in_backticks st0 = false) by exact B.
  rewrite B0. cbn [negb].
  rewrite (marker_start_inside_marker _ st0 M0), bind_ret_l.
  rewrite (marker_end_fires _ st0 i Hne M0 F).
  rewrite events_bind. simpl. eauto.
Qed.

Lemma feed_closes_fence (st : state) (chunk : str) (i : nat) :
  in_marker st = false ->
  in_backticks st = true ->
  find (buffer st ++ chunk) fence = Some i ->
  exists rest,
    events (feed st chunk)
    = (ClipboardText, fence ++ strip (firstn i (buffer st ++ chunk)) ++ fence)
        :: (Sentence, confirmation) :: rest.
Proof.
  intros M B F. unfold feed.
  set (st0 := append_chunk st chunk).
  assert (M0 : in_marker st0 = false) by exact M.
  assert (B0 : in_backticks st0 = true) by exact B.
  rewrite (marker_phase_inside_fence _ _ st0 B0), bind_ret_l.
  rewrite (fence_close_fires st0 i M0 B0 F).
  rewrite events_bind. simpl. eauto.
Qed.

Lemma feed_all_closes_marker (chunks_stream : list str) (i : nat) :
  clip_end_marker <> [] ->
  forall st,
    in_marker_span clip_end_marker st ->
    find (buffer st ++ concat chunks_stream) clip_end_marker = Some i ->
    exists rest,
      events (feed_all st chunks_stream)
      = (ClipboardText,
         strip (firstn i (buffer st ++ concat chunks_stream))) :: rest.
Proof.
  intros Hne.
  induction chunks_stream as [|chunk cs IH]; intros st [M [B C]] F;
    cbn [feed_all concat] in *.
  - rewrite app_nil_r in F. apply find_contains in F. congruence.
  - rewrite (app_assoc (buffer st) chunk (concat cs)) in F |- *.
    destruct (contains clip_end_marker (buffer st ++ chunk)) eqn:C1.
    + destruct (contains_find _ _ C1) as [j Fj].
      pose proof (find_app_found _ _ (concat cs) _ Fj) as Fj'.
      assert (i = j) by congruence. subst j.
      pose proof (find_bound _ _ _ Fj) as Hb.
      rewrite firstn_app_fits by lia.
      destruct (feed_closes_marker st chunk i Hne M B Fj) as [rest Hr].
      rewrite events_bind, Hr. simpl. eauto.
    + rewrite (feed_inside_marker st chunk M B C1), bind_ret_l.
      apply (IH (append_chunk st chunk)); [|exact F].
      repeat split; assumption.
Qed.

Lemma feed_all_closes_fence (chunks_stream : list str) (i : nat) :
  forall st,
    in_fence_span st ->
    find (buffer st ++ concat chunks_stream) fence = Some i ->
    exists rest,
      events (feed_all st chunks_stream)
      = (ClipboardText,
         fence ++ strip (firstn i (buffer st ++ concat chunks_stream))
               ++ fence)
          :: (Sentence, confirmation) :: rest.
Proof.
  induction chunks_stream as [|chunk cs IH]; intros st [M [B C]] F;
    cbn [feed_all concat] in *.
  - rewrite app_nil_r in F. apply find_contains in F. congruence.
  - rewrite (app_assoc (buffer st) chunk (concat cs)) in F |- *.
    destruct (contains fence (buffer st ++ chunk)) eqn:C1.
    + destruct (contains_find _ _ C1) as [j Fj].
      pose proof (find_app_found _ _ (concat cs) _ Fj) as Fj'.
      assert (i = j) by congruence. subst j.
      pose proof (find_bound _ _ _ Fj) as Hb.
      rewrite firstn_app_fits by lia.
      destruct (feed_closes_fence st chunk i M B Fj) as [rest Hr].
      rewrite events_bind, Hr. simpl. eauto.
    + rewrite (feed_inside_fence st chunk B C1), bind_ret_l.
      apply (IH (append_chunk st chunk)); [|exact F].
      repeat split; assumption.
Qed.

(** The state after every chunk. *)
Lemma marker_end_drained (st : state) :
  ok any_event (marker_end clip_end_marker st)
     (fun st' => in_marker st' = true ->
                 contains clip_end_marker (buffer st') = false).
Proof.
  apply ok_any.
  destruct (contains clip_end_marker (buffer st)) eqn:C.
  - destruct (in_marker st) eqn:M.
    + destruct clip_end_marker as [|a e] eqn:He.
      * now rewrite marker_end_empty.
      * destruct (contains_find _ _ C) as [i F].
        rewrite (marker_end_fires (a :: e) st i) by (discriminate || auto).
        simpl. discriminate.
    + rewrite marker_end_skip by exact M. simpl. congruence.
  - rewrite marker_end_absent by exact C. simpl. auto.
Qed.

Lemma feed_drained (st : state) (chunk : str) :
  exclusive st ->
  ok any_event (feed st chunk) (drained clip_end_marker).
Proof.
  intros Hx. unfold feed.
  set (st0 := append_chunk st chunk).
  assert (Hx0 : exclusive st0) by exact Hx.
  eapply ok_bind with
    (Q := fun st1 => in_marker st1 = true ->
                     contains clip_end_marker (buffer st1) = false).
  - unfold marker_phase. destruct (in_backticks st0) eqn:B; simpl.
    + apply ok_ret. intros M. unfold exclusive in Hx0.
      rewrite M, B in Hx0. discriminate.
    + eapply ok_bind with (Q := fun _ => True).
      * apply ok_any. now destruct (snd _).
      * intros st1 _. apply marker_end_drained.
  - intros st1 H1.
    eapply ok_bind with
      (Q := fun st2 => in_marker st2 = true ->
                       contains clip_end_marker (buffer st2) = false).
    + apply ok_any.
      destruct (fence_phase_cases st1)
        as [-> | [[pre [post [M [_ [_ ->]]]]] | [sec [post [M [_ [_ ->]]]]]]];
        simpl; [exact H1 | congruence | congruence].
    + intros st2 H2. apply ok_any.
      destruct (in_marker st2) eqn:M; [|destruct (in_backticks st2) eqn:B].
      * rewrite (sentence_phase_inside_marker st2 M).
        unfold drained. simpl.
        split; [intros _; now apply H2 | congruence].
      * rewrite (sentence_phase_inside_fence st2 B).
        unfold drained. simpl. split; congruence.
      * rewrite (sentence_phase_outside st2 M B).
        unfold drained. simpl.
        split; [congruence|]. intros _ _.
        apply search_boundary_none, extract_sentences_rest.
Qed.

End Spans.

Lemma feed_all_invariants (clip_start_marker clip_end_marker : str)
      (chunks_stream : list str) :
  forall st,
    exclusive st -> drained clip_end_marker st ->
    ok any_event
       (feed_all clip_start_marker clip_end_marker st chunks_stream)
       (fun st' => exclusive st' /\ drained clip_end_marker st').
Proof.
  induction chunks_stream as [|chunk rest IH]; intros st Hx Hd; simpl.
  - now apply ok_ret.
  - eapply ok_bind with
      (Q := fun st' => exclusive st' /\ drained clip_end_marker st').
    + destruct (feed_exclusive clip_start_marker clip_end_marker
                               st chunk Hx) as [_ H1].
      destruct (feed_drained clip_start_marker clip_end_marker
                             st chunk Hx) as [_ H2].
      apply ok_any. destruct (snd _); auto.
    + intros st1 [Hx1 Hd1]. now apply IH.
Qed.

Lemma initial_invariants (clip_end_marker : str) :
  exclusive initial /\ drained clip_end_marker initial.
Proof. repeat split; try reflexivity. discriminate. Qed.

Lemma reached_invariants (clip_start_marker clip_end_marker : str)
      (chunks_stream : list str) (evs : list event) (st : state) :
  feed_all clip_start_marker clip_end_marker initial chunks_stream
  = (evs, Returned st) ->
  exclusive st /\ drained clip_end_marker st.
Proof.
  intros E.
  destruct (initial_invariants clip_end_marker) as [Hx Hd].
  destruct (feed_all_invariants clip_start_marker clip_end_marker
                                chunks_stream initial Hx Hd) as [_ H].
  now rewrite E in H.
Qed.

(** X4.  After every chunk the loop completes: if the loop is inside a
    marker span, the buffer does not contain the end marker; if it is
    outside every span, the buffer has no sentence boundary.  (Nothing of
    the kind is stated of a fence span, nor of start markers and fences
    outside a span.) *)
Theorem buffer_after_each_chunk
        (clip_start_marker clip_end_marker : str)
        (chunks_stream : list str) (evs : list event) (st : state) :
  feed_all clip_start_marker clip_end_marker initial chunks_stream
  = (evs, Returned st) ->
  (in_marker st = true -> contains clip_end_marker (buffer st) = false)
  /\ (in_marker st = false -> in_backticks st = false ->
      earliest_boundary (buffer st) = None).
Proof. intros E. now apply reached_invariants in E. Qed.

Lemma buffer_after_each_chunk_witness :
  contains CLIPEND (lit "x. y") = false
  /\ earliest_boundary (lit "b") = None.
Proof.
  split.
  - refine (proj1 (buffer_after_each_chunk
                     CLIPSTART CLIPEND [lit "a. b -CLIPSTART-x. "; lit "y"]
                     [(Sentence, lit "a. b")]
                     (mkState (lit "x. y") (lit "a. b -CLIPSTART-x. y")
                              true false) _) eq_refl).
    vm_compute. reflexivity.
  - refine (proj2 (buffer_after_each_chunk
                     CLIPSTART CLIPEND [lit "a. "; lit "b"]
                     [(Sentence, lit "a.")]
                     (mkState (lit "b") (lit "a. b") false false) _)
                  eq_refl eq_refl).
    vm_compute. reflexivity.
Defined.

(** X5.  While a span is open and its closing delimiter has not arrived in
    full, the loop yields nothing and only appends the chunks to the
    buffer, however many they are: no sentence is cut inside a marker span
    or a fence span, no fence is looked for inside a marker span and no
    marker inside a fence span. *)
Theorem open_span_is_buffered
        (clip_start_marker clip_end_marker : str)
        (st : state) (chunks_stream : list str) :
  (in_marker st = true -> in_backticks st = false ->
   contains clip_end_marker (buffer st ++ concat chunks_stream) = false ->
   feed_all clip_start_marker clip_end_marker st chunks_stream
   = ret (mkState (buffer st ++ concat chunks_stream)
                  (full_response st ++ concat chunks_stream) true false))
  /\ (in_marker st = false -> in_backticks st = true ->
      contains fence (buffer st ++ concat chunks_stream) = false ->
      feed_all clip_start_marker clip_end_marker st chunks_stream
      = ret (mkState (buffer st ++ concat chunks_stream)
                     (full_response st ++ concat chunks_stream) false true)).
Proof.
  split.
  - apply feed_all_inside_marker.
  - apply feed_all_inside_fence.
Qed.

Lemma open_span_is_buffered_witness :
  feed_all CLIPSTART CLIPEND (mkState (lit "a. ") (lit "-CLIPSTART-a. ") true false)
           [lit "b ```c"; lit "``` -CLIPEN"]
  = ret (mkState (lit "a. b ```c``` -CLIPEN")
                 (lit "-CLIPSTART-a. b ```c``` -CLIPEN") true false)
  /\ feed_all CLIPSTART CLIPEND (mkState (lit "x. ") (lit "```x. ") false true)
              [lit "-CLIPSTART-y"; lit "-CLIPEND- z``"]
     = ret (mkState (lit "x. -CLIPSTART-y-CLIPEND- z``")
                    (lit "```x. -CLIPSTART-y-CLIPEND- z``") false true).
Proof.
  split.
  - apply (proj1 (open_span_is_buffered
                    CLIPSTART CLIPEND
                    (mkState (lit "a. ") (lit "-CLIPSTART-a. ") true false)
                    [lit "b ```c"; lit "``` -CLIPEN"])); reflexivity.
  - apply (proj2 (open_span_is_buffered
                    CLIPSTART CLIPEND
                    (mkState (lit "x. ") (lit "```x. ") false true)
                    [lit "-CLIPSTART-y"; lit "-CLIPEND- z``"])); reflexivity.
Defined.

(** X6.  The clipboard text of a marker span does not depend on the
    chunks: when the loop is inside a marker span after some chunks, and
    the buffer followed by the rest of the stream has the end marker first
    at index [i], the next event is the clipboard text of the first [i]
    characters of that text, trimmed, however the rest is cut into
    chunks. *)
Theorem marker_payload_is_chunking_independent
        (clip_start_marker clip_end_marker : str)
        (chunks_before chunks_after : list str)
        (evs : list event) (st : state) (i : nat) :
  clip_end_marker <> [] ->
  feed_all clip_start_marker clip_end_marker initial chunks_before
  = (evs, Returned st) ->
  in_marker st = true ->
  find (buffer st ++ concat chunks_after) clip_end_marker = Some i ->
  exists rest,
    events (feed_all clip_start_marker clip_end_marker initial
                     (chunks_before ++ chunks_after))
    = evs ++ (ClipboardText,
              strip (firstn i (buffer st ++ concat chunks_after))) :: rest.
Proof.
  intros Hne E M F.
  destruct (reached_invariants _ _ _ _ _ E) as [Hx [Hd _]].
  assert (B : in_backticks st = false).
  { unfold exclusive in Hx. rewrite M in Hx. exact Hx. }
  destruct (feed_all_closes_marker clip_start_marker clip_end_marker
              chunks_after i Hne st) as [rest Hr]; [|exact F|].
  - repeat split; auto.
  - exists rest. rewrite feed_all_app, events_bind, E. simpl.
    now rewrite Hr.
Qed.

Lemma marker_payload_is_chunking_independent_witness :
  exists rest,
    events (feed_all CLIPSTART CLIPEND initial
                     ([lit "Hi -CLIPSTART- a"] ++ [lit "b -CLIP"; lit "END- c"]))
    = [(Sentence, lit "Hi")]
        ++ (ClipboardText, strip (firstn 4 (lit " a" ++ lit "b -CLIPEND- c")))
        :: rest.
Proof.
  apply (marker_payload_is_chunking_independent
           CLIPSTART CLIPEND [lit "Hi -CLIPSTART- a"]
           [lit "b -CLIP"; lit "END- c"] [(Sentence, lit "Hi")]
           (mkState (lit " a") (lit "Hi -CLIPSTART- a") true false) 4);
    [discriminate | reflexivity | reflexivity | reflexivity].
Defined.

(** X7.  The clipboard text of a fence span that is open after some chunks,
    with no fence in the buffer yet, does not depend on the chunks either:
    when the buffer followed by the rest of the stream has a fence first at
    index [i], the next events are the clipboard text of the first [i]
    characters, trimmed and put between two fences, and the confirmation
    sentence. *)
Theorem fence_payload_is_chunking_independent
        (clip_start_marker clip_end_marker : str)
        (chunks_before chunks_after : list str)
        (evs : list event) (st : state) (i : nat) :
  feed_all clip_start_marker clip_end_marker initial chunks_before
  = (evs, Returned st) ->
  in_backticks st = true ->
  contains fence (buffer st) = false ->
  find (buffer st ++ concat chunks_after) fence = Some i ->
  exists rest,
    events (feed_all clip_start_marker clip_end_marker initial
                     (chunks_before ++ chunks_after))
    = evs ++ (ClipboardText,
              fence ++ strip (firstn i (buffer st ++ concat chunks_after))
                    ++ fence)
          :: (Sentence, confirmation) :: rest.
Proof.
  intros E B C F.
  destruct (reached_invariants _ _ _ _ _ E) as [Hx _].
  assert (M : in_marker st = false).
  { unfold exclusive in Hx. rewrite B, andb_true_r in Hx. exact Hx. }
  destruct (feed_all_closes_fence clip_start_marker clip_end_marker
              chunks_after i st) as [rest Hr]; [|exact F|].
  - repeat split; auto.
  - exists rest. rewrite feed_all_app, events_bind, E. simpl.
    now rewrite Hr.
Qed.

Lemma fence_payload_is_chunking_independent_witness :
  exists rest,
    events (feed_all CLIPSTART CLIPEND initial
                     ([lit "Run ```ls"] ++ [lit " -l`"; lit "`` now."]))
    = [(Sentence, lit "Run")]
        ++ (ClipboardText,
            fence ++ strip (firstn 5 (lit "ls" ++ lit " -l``` now.")) ++ fence)
        :: (Sentence, confirmation) :: rest.
Proof.
  apply (fence_payload_is_chunking_independent
           CLIPSTART CLIPEND [lit "Run ```ls"]
           [lit " -l`"; lit "`` now."] [(Sentence, lit "Run")]
           (mkState (lit "ls") (lit "Run ```ls") false true) 5);
    reflexivity.
Defined.

(** ** Empty markers *)

(** X8.  With an empty start marker the generator raises on the first
    chunk and yields nothing.  With an empty end marker it raises in the
    chunk in which a start marker is recognised, after the sentence in
    front of the marker at most; so the loop is never inside a marker span
    when a chunk is done. *)
Theorem empty_markers_raise :
  (forall clip_end_marker chunk rest,
      _stream_sentences_from_chunks [] clip_end_marker (chunk :: rest)
      = ([], Raised))
  /\ (forall clip_start_marker st chunk i,
         clip_start_marker <> [] ->
         in_marker st = false ->
         in_backticks st = false ->
         find (buffer st ++ chunk) clip_start_marker = Some i ->
         feed clip_start_marker [] st chunk
         = (events (yield_if_truthy
                      Sentence (strip (firstn i (buffer st ++ chunk)))),
            Raised))
  /\ (forall clip_start_marker chunks_stream evs st,
         feed_all clip_start_marker [] initial chunks_stream
         = (evs, Returned st) ->
         in_marker st = false).
Proof.
  split; [|split].
  - intros ce chunk rest. unfold _stream_sentences_from_chunks.
    cbn [feed_all]. unfold feed at 1, marker_phase.
    set (st0 := append_chunk initial chunk).
    change (in_backticks st0) with false. cbn [negb].
    unfold marker_start. rewrite contains_nil.
    change (in_marker st0) with false. reflexivity.
  - intros cs st chunk i Hne M B F. unfold feed, marker_phase.
    set (st0 := append_chunk st chunk).
    assert (M0 : in_marker st0 = false) by exact M.
    assert (B0 : in_backticks st0 = false) by exact B.
    rewrite B0. cbn [negb].
    rewrite (marker_start_fires cs st0 i Hne M0 F).
    unfold bind at 2. rewrite marker_end_empty by reflexivity.
    simpl. now rewrite app_nil_r.
  - intros cs chunks evs st E.
    destruct (reached_invariants _ _ _ _ _ E) as [_ [Hd _]].
    destruct (in_marker st); [|reflexivity].
    specialize (Hd eq_refl). rewrite contains_nil in Hd. discriminate.
Qed.

Lemma empty_markers_raise_witness :
  feed (lit "<") [] (mkState (lit "Hi. ") (lit "Hi. ") false false) (lit "so <x")
  = ([(Sentence, lit "Hi. so")], Raised)
  /\ in_marker (mkState (lit "so") (lit "Hi. so") false false) = false.
Proof.
  pose proof empty_markers_raise as [_ [Hfeed Hrun]].
  split.
  - apply (Hfeed (lit "<") (mkState (lit "Hi. ") (lit "Hi. ") false false)
                 (lit "so <x") 7); [discriminate | reflexivity..].
  - apply (Hrun (lit "<") [lit "Hi. so"] [(Sentence, lit "Hi.")]).
    reflexivity.
Defined.

(** ** The sentence loop ends *)

Lemma extract_sentences_count (b : str) :
  length (fst (extract_sentences b)) <= length b.
Proof.
  induction b as [b E | b m E IH] using extract_ind;
    rewrite extract_sentences_eq, E.
  - simpl. lia.
  - pose proof (search_bounds _ _ E) as Hb.
    destruct (extract_sentences (skipn (Re.m_end m) b)) as [evs rest].
    simpl in *. rewrite length_app, yield_if_truthy_events.
    rewrite length_skipn in IH.
    destruct (truthy _); simpl; lia.
Qed.

(** X9.  Every match of [sentence_endings] in the buffer ends behind at
    least one character, so every iteration of the loop of lines 139-147
    shortens the buffer: the loop ends after at most as many iterations as
    the buffer has characters (more fuel than that changes nothing), and
    yields at most that many sentences. *)
Theorem sentence_loop_ends :
  (forall b m,
      Re.search b = Some m ->
      1 <= Re.m_end m <= length b
      /\ length (skipn (Re.m_end m) b) < length b)
  /\ (forall b fuel,
         length b <= fuel -> extract_loop fuel b = extract_sentences b)
  /\ (forall b, length (fst (extract_sentences b)) <= length b).
Proof.
  split; [|split].
  - intros b m E. pose proof (search_bounds _ _ E) as Hb.
    rewrite length_skipn. lia.
  - intros b fuel H. unfold extract_sentences.
    now apply extract_loop_fuel.
  - apply extract_sentences_count.
Qed.

Lemma sentence_loop_ends_witness :
  (1 <= 2 <= length (lit "a" ++ [10%N] ++ lit "b")
   /\ length (skipn 2 (lit "a" ++ [10%N] ++ lit "b"))
      < length (lit "a" ++ [10%N] ++ lit "b"))
  /\ extract_loop 7 (lit "a. b") = extract_sentences (lit "a. b").
Proof.
  pose proof sentence_loop_ends as [Hstep [Hfuel _]].
  split.
  - apply (Hstep (lit "a" ++ [10%N] ++ lit "b") (Re.mkMatch 2 2)).
    reflexivity.
  - apply (Hfuel (lit "a. b") 7). simpl. lia.
Defined.

(** ** Blank input *)

Lemma contains_visible (sub s : str) :
  contains sub s = true -> visible s = [] -> visible sub = [].
Proof.
  intros C Hs. destruct (contains_find _ _ C) as [i F].
  rewrite (find_split _ _ _ F) in Hs.
  apply (f_equal (@length char)) in Hs.
  rewrite !visible_app, !length_app in Hs. simpl in Hs.
  destruct (visible sub); [reflexivity | simpl in Hs; lia].
Qed.

Lemma blank_absent (sub s : str) :
  visible sub <> [] -> visible s = [] -> contains sub s = false.
Proof.
  intros Hsub Hs. destruct (contains sub s) eqn:C; [|reflexivity].
  now apply contains_visible in C.
Qed.

Lemma sentences_of_blank (s : str) : visible s = [] -> sentences_of s = [].
Proof.
  intros Hs. pose proof (sentences_of_visible s) as Hv.
  pose proof (sentences_of_single s) as Hk.
  assert (Hn : Forall nonblank (sentences_of s)).
  { unfold sentences_of, flush_sentence. apply Forall_app. split.
    - eapply Forall_impl; [|apply extract_sentences_events].
      intros e [_ H]. exact H.
    - apply nonblank_yield_if_truthy. }
  destruct (sentences_of s) as [|[k p] evs]; [reflexivity|].
  exfalso. inversion Hn as [|e l Hp _]; subst.
  unfold nonblank in Hp. simpl in Hp. rewrite truthy_strip in Hp.
  rewrite Hs in Hv. unfold payloads in Hv. simpl in Hv.
  rewrite visible_app in Hv.
  destruct (visible p); [discriminate Hp | discriminate Hv].
Qed.

(** X10.  When the start marker has a character that is not whitespace, a
    stream of nothing but whitespace yields no event at all, whatever its
    chunks: no sentence, no clipboard text, no [full_response]. *)
Theorem blank_input_is_silent
        (clip_start_marker clip_end_marker : str) (chunks_stream : list str) :
  visible clip_start_marker <> [] ->
  visible (concat chunks_stream) = [] ->
  _stream_sentences_from_chunks clip_start_marker clip_end_marker chunks_stream
  = ([], Returned tt).
Proof.
  intros Hm Hb.
  rewrite segment_plain; try (apply blank_absent; [|exact Hb]);
    try exact Hm; try discriminate.
  rewrite sentences_of_blank by exact Hb.
  now rewrite strip_blank by exact Hb.
Qed.

Lemma blank_input_is_silent_witness :
  _stream_sentences_from_chunks CLIPSTART CLIPEND
                                [lit "  "; [10%N; 9%N]; lit " "]
  = ([], Returned tt).
Proof.
  apply (blank_input_is_silent CLIPSTART CLIPEND
                               [lit "  "; [10%N; 9%N]; lit " "]);
    [discriminate | reflexivity].
Defined.

(** ** Chunks of one character *)

Lemma find_app_fits (s sub rest : str) (i : nat) :
  find (s ++ rest) sub = Some i ->
  i + length sub <= length s ->
  find s sub = Some i.
Proof.
  revert i; induction s as [|d s IH]; intros i F H.
  - destruct sub; [|simpl in H; lia].
    replace i with 0 by (simpl in H; lia). reflexivity.
  - simpl app in F. simpl find in F |- *.
    change (d :: s ++ rest) with ((d :: s) ++ rest) in F.
    rewrite startswith_app_fits in F by lia.
    destruct (startswith (d :: s) sub); [exact F|].
    destruct (find (s ++ rest) sub) as [j|] eqn:Fj; [|discriminate].
    injection F as <-. simpl in H.
    now rewrite (IH j eq_refl) by lia.
Qed.

(** A delimiter that one more character completes ends with that
    character. *)
Lemma find_snoc_end (b sub : str) (c : char) (i : nat) :
  contains sub b = false ->
  find (b ++ [c]) sub = Some i ->
  skipn (i + length sub) (b ++ [c]) = [].
Proof.
  intros C F. pose proof (find_bound _ _ _ F) as Hb.
  rewrite length_app in Hb. simpl in Hb.
  destruct (Nat.le_gt_cases (i + length sub) (length b)) as [Hle|Hgt].
  - apply find_app_fits in F; [|exact Hle].
    apply find_contains in F. congruence.
  - apply skipn_all2. rewrite length_app. simpl. lia.
Qed.

Lemma contains_in_nil (sub : str) : sub <> [] -> contains sub [] = false.
Proof. destruct sub; [contradiction | reflexivity]. Qed.

Lemma fence_open_fires (st : state) (i : nat) :
  in_marker st = false ->
  in_backticks st = false ->
  find (buffer st) fence = Some i ->
  fence_phase st =
  (events (yield_if_truthy Sentence (strip (firstn i (buffer st)))),
   Returned (set_in_backticks
               (set_buffer st (skipn (i + length fence) (buffer st)))
               true)).
Proof.
  intros M B F. unfold fence_phase.
  rewrite M, B, (find_contains _ _ _ F). simpl.
  rewrite (partition_gen_find (buffer st) fence i) by (discriminate || exact F).
  rewrite bind_ret_l.
  now rewrite bind_unit by apply yield_if_truthy_returns.
Qed.

Ltac run_binds := unfold bind, ret; cbv beta iota.

Section OneCharacter.

Variables clip_start_marker clip_end_marker : str.
Hypothesis start_not_empty : clip_start_marker <> [].
Hypothesis end_not_empty : clip_end_marker <> [].

Local Abbreviation feed := (feed clip_start_marker clip_end_marker).
Local Abbreviation feed_all := (feed_all clip_start_marker clip_end_marker).
Local Abbreviation clean :=
  (no_delimiter_left clip_start_marker clip_end_marker).

Lemma clean_empty_buffer (st : state) :
  buffer st = [] -> clean st.
Proof.
  intros Hb. unfold no_delimiter_left. rewrite Hb.
  split; [intros _ _; split; [now apply contains_in_nil | reflexivity]|].
  split; intros _; [now apply contains_in_nil | reflexivity].
Qed.

Lemma feed_char_marker_mode (st : state) (c : char) :
  in_marker st = true -> in_backticks st = false ->
  contains clip_end_marker (buffer st) = false ->
  ok any_event (feed st [c]) clean.
Proof.
  intros M B C. apply ok_any.
  destruct (contains clip_end_marker (buffer st ++ [c])) eqn:C1.
  - destruct (contains_find _ _ C1) as [i F].
    unfold feed, marker_phase.
    set (st0 := append_chunk st [c]).
    assert (M0 : in_marker st0 = true) by exact M.
    assert (B0 : in_backticks st0 = false) by exact B.
    rewrite B0. cbn [negb].
    rewrite (marker_start_inside_marker _ st0 M0). run_binds.
    rewrite (marker_end_fires _ st0 i end_not_empty M0 F).
    change (buffer st0) with (buffer st ++ [c]).
    rewrite (find_snoc_end _ _ _ _ C F).
    set (st1 := set_in_marker (set_buffer st0 []) false).
    run_binds.
    rewrite (fence_phase_skip st1 eq_refl). run_binds.
    rewrite (sentence_phase_outside st1 eq_refl B0). simpl.
    now apply clean_empty_buffer.
  - rewrite (feed_inside_marker _ _ st [c] M B C1). simpl.
    unfold no_delimiter_left. simpl. rewrite M, B.
    repeat split; congruence.
Qed.

Lemma feed_char_fence_mode (st : state) (c : char) :
  in_marker st = false -> in_backticks st = true ->
  contains fence (buffer st) = false ->
  ok any_event (feed st [c]) clean.
Proof.
  intros M B C. apply ok_any.
  destruct (contains fence (buffer st ++ [c])) eqn:C1.
  - destruct (contains_find _ _ C1) as [i F].
    unfold feed.
    set (st0 := append_chunk st [c]).
    assert (M0 : in_marker st0 = false) by exact M.
    assert (B0 : in_backticks st0 = true) by exact B.
    rewrite (marker_phase_inside_fence _ _ st0 B0). run_binds.
    rewrite (fence_close_fires st0 i M0 B0 F).
    change (buffer st0) with (buffer st ++ [c]).
    rewrite (find_snoc_end _ _ _ _ C F).
    set (st1 := set_in_backticks (set_buffer st0 []) false).
    run_binds.
    rewrite (sentence_phase_outside st1 M0 eq_refl). simpl.
    now apply clean_empty_buffer.
  - rewrite (feed_inside_fence _ _ st [c] B C1). simpl.
    unfold no_delimiter_left. simpl. rewrite M, B.
    repeat split; congruence.
Qed.

Lemma feed_char_outside (st : state) (c : char) :
  in_marker st = false -> in_backticks st = false ->
  contains clip_start_marker (buffer st) = false ->
  contains fence (buffer st) = false ->
  ok any_event (feed st [c]) clean.
Proof.
  intros M B Cs Cf. apply ok_any.
  unfold feed, marker_phase.
  set (st0 := append_chunk st [c]).
  assert (M0 : in_marker st0 = false) by exact M.
  assert (B0 : in_backticks st0 = false) by exact B.
  rewrite B0. cbn [negb].
  destruct (contains clip_start_marker (buffer st0)) eqn:C1.
  - destruct (contains_find _ _ C1) as [i F].
    rewrite (marker_start_fires _ st0 i start_not_empty M0 F).
    change (buffer st0) with (buffer st ++ [c]).
    rewrite (find_snoc_end _ _ _ _ Cs F).
    set (st1 := set_in_marker (set_buffer st0 []) true).
    run_binds.
    rewrite (marker_end_absent _ st1 (contains_in_nil _ end_not_empty)).
    run_binds.
    rewrite (fence_phase_inside_marker st1 eq_refl). run_binds.
    rewrite (sentence_phase_inside_marker st1 eq_refl). simpl.
    now apply clean_empty_buffer.
  - rewrite (marker_start_skip _ st0 C1). run_binds.
    rewrite (marker_end_skip _ st0 M0). run_binds.
    destruct (contains fence (buffer st0)) eqn:C2.
    + destruct (contains_find _ _ C2) as [i F].
      rewrite (fence_open_fires st0 i M0 B0 F).
      change (buffer st0) with (buffer st ++ [c]).
      rewrite (find_snoc_end _ _ _ _ Cf F).
      set (st1 := set_in_backticks (set_buffer st0 []) true).
      run_binds.
      rewrite (sentence_phase_inside_fence st1 eq_refl). simpl.
      now apply clean_empty_buffer.
    + rewrite (fence_phase_skip st0 C2). run_binds.
      rewrite (sentence_phase_outside st0 M0 B0). simpl.
      destruct (extract_sentences_suffix (buffer st0)) as [pre Hpre].
      change (buffer st0) with (buffer st ++ [c]) in *.
      rewrite Hpre in C1, C2.
      destruct (absent_app _ _ _ C1) as [_ C1'].
      destruct (absent_app _ _ _ C2) as [_ C2'].
      unfold no_delimiter_left. simpl.
      repeat split; congruence.
Qed.

Lemma feed_char_clean (st : state) (c : char) :
  exclusive st -> clean st ->
  ok any_event (feed st [c]) (fun st' => exclusive st' /\ clean st').
Proof.
  intros Hx [Hn [Hm Hf]].
  assert (H : ok any_event (feed st [c]) clean).
  { destruct (in_marker st) eqn:M.
    - assert (B : in_backticks st = false).
      { unfold exclusive in Hx. now rewrite M in Hx. }
      apply feed_char_marker_mode; auto.
    - destruct (in_backticks st) eqn:B.
      + apply feed_char_fence_mode; auto.
      + destruct (Hn eq_refl eq_refl). apply feed_char_outside; auto. }
  destruct (feed_exclusive clip_start_marker clip_end_marker st [c] Hx)
    as [_ H1].
  destruct H as [_ H2]. apply ok_any. destruct (snd _); auto.
Qed.

Lemma feed_all_chars_clean (s : str) :
  forall st,
    exclusive st -> clean st ->
    ok any_event (feed_all st (chars s))
       (fun st' => exclusive st' /\ clean st').
Proof.
  induction s as [|c s IH]; intros st Hx Hc; cbn [chars List.map feed_all].
  - now apply ok_ret.
  - eapply ok_bind; [now apply feed_char_clean|].
    intros st1 [Hx1 Hc1]. now apply IH.
Qed.

End OneCharacter.

(** X11.  With markers that are not empty and chunks of one character
    each, after every chunk the buffer contains no start marker and no
    fence if the loop is outside every span, no end marker if it is inside
    a marker span, and no fence if it is inside a fence span. *)
Theorem one_character_chunks_leave_no_delimiter
        (clip_start_marker clip_end_marker : str) (s : str)
        (evs : list event) (st : state) :
  clip_start_marker <> [] ->
  clip_end_marker <> [] ->
  feed_all clip_start_marker clip_end_marker initial (chars s)
  = (evs, Returned st) ->
  (in_marker st = false -> in_backticks st = false ->
   contains clip_start_marker (buffer st) = false
   /\ contains fence (buffer st) = false)
  /\ (in_marker st = true -> contains clip_end_marker (buffer st) = false)
  /\ (in_backticks st = true -> contains fence (buffer st) = false).
Proof.
  intros Hs He E.
  destruct (feed_all_chars_clean clip_start_marker clip_end_marker
              Hs He s initial eq_refl) as [_ H].
  - now apply clean_empty_buffer.
  - rewrite E in H. apply H.
Qed.

Lemma one_character_chunks_leave_no_delimiter_witness :
  (contains CLIPSTART (lit "yo") = false
   /\ contains fence (lit "yo") = false)
  /\ contains CLIPEND (lit "ab") = false
  /\ contains fence (lit "print(1)") = false.
Proof.
  split; [|split].
  - refine (proj1 (one_character_chunks_leave_no_delimiter
                     CLIPSTART CLIPEND (lit "Hi. yo")
                     [(Sentence, lit "Hi.")]
                     (mkState (lit "yo") (lit "Hi. yo") false false)
                     _ _ _) eq_refl eq_refl);
      [discriminate | discriminate | vm_compute; reflexivity].
  - refine (proj1 (proj2 (one_character_chunks_leave_no_delimiter
                            CLIPSTART CLIPEND (lit "-CLIPSTART-ab") []
                            (mkState (lit "ab") (lit "-CLIPSTART-ab")
                                     true false)
                            _ _ _)) eq_refl);
      [discriminate | discriminate | vm_compute; reflexivity].
  - refine (proj2 (proj2 (one_character_chunks_leave_no_delimiter
                            CLIPSTART CLIPEND (lit "Use this: ```print(1)")
                            [(Sentence, lit "Use this:")]
                            (mkState (lit "print(1)")
                                     (lit "Use this: ```print(1)")
                                     false true)
                            _ _ _)) eq_refl);
      [discriminate | discriminate | vm_compute; reflexivity].
Defined.
